(** * MoviePilot: the torrent filter module and the job scheduler

    A shallow embedding of [app/modules/filter/__init__.py] (class
    [FilterModule]) and of [app/scheduler.py] (class [Scheduler]), and
    the properties of both that the design document states.

    Conventions.
    - A Python [str] is a Rocq [string] holding its UTF-8 bytes.
    - A Python exception is a value of [exn]; code that may raise returns
      [res A], and [x ← m; k] sequences two such computations.
    - Python's [None]/[True]/[False] results are [option bool].
    - A [dict] whose iteration order is observable is an association list
      in insertion order (module [ODict]); the static predicate table is a
      [gmap]. *)

From stdpp Require Import base option list strings gmap.
From Stdlib Require Import ZArith Ascii String.

Set Warnings "-register-all".

Open Scope Z_scope.

(** ** Exceptions and the error monad *)

Inductive exn : Type :=
  | IndexError
  | TypeError
  | KeyError
  | ParseException
  | JobLookupError
  | ConflictingIdError
  | OtherError (msg : string).

Inductive res (A : Type) : Type :=
  | Ok (a : A)
  | Raise (e : exn).
Arguments Ok {A} a.
Arguments Raise {A} e.

#[global] Instance res_ret : MRet res := λ A a, Ok a.
#[global] Instance res_bind : MBind res := λ A B k m,
  match m with
  | Ok a => k a
  | Raise e => Raise e
  end.

Definition is_ok {A} (m : res A) : Prop := ∃ a, m = Ok a.

(** ** Python strings: [split] on one character and [strip] *)

Module PyStr.

(** [s.split(sep)] for a one-character separator: never empty, one more
    piece than there are separators. *)
Fixpoint split (sep : ascii) (s : string) : list string :=
  match s with
  | EmptyString => [EmptyString]
  | String c s' =>
      if Ascii.eqb c sep then EmptyString :: split sep s'
      else match split sep s' with
           | w :: ws => String c w :: ws
           | [] => [String c EmptyString]
           end
  end.

Definition byte_in (c : ascii) (l : list nat) : bool :=
  bool_decide (nat_of_ascii c ∈ l).

(** The characters [str.isspace] accepts, by the length of their UTF-8
    encoding: [\t \n \v \f \r], U+001C..U+001F and the blank; U+0085 and
    U+00A0; U+1680, U+2000..U+200A, U+2028, U+2029, U+202F, U+205F and
    U+3000. *)
Definition space1 (c : ascii) : bool :=
  byte_in c [9; 10; 11; 12; 13; 28; 29; 30; 31; 32]%nat.

Definition space2 (c1 c2 : ascii) : bool :=
  byte_in c1 [194]%nat && byte_in c2 [133; 160]%nat.

Definition space3 (c1 c2 c3 : ascii) : bool :=
  (byte_in c1 [225]%nat && byte_in c2 [154]%nat && byte_in c3 [128]%nat)
  || (byte_in c1 [226]%nat && byte_in c2 [128]%nat
      && byte_in c3 [128; 129; 130; 131; 132; 133; 134; 135; 136; 137; 138;
                     168; 169; 175]%nat)
  || (byte_in c1 [226]%nat && byte_in c2 [129]%nat && byte_in c3 [159]%nat)
  || (byte_in c1 [227]%nat && byte_in c2 [128]%nat && byte_in c3 [128]%nat).

(** Drops leading white space. With [back := true] the string is read
    from its end (it has been reversed), so the bytes of a character come
    in the opposite order. *)
Fixpoint drop_space (back : bool) (s : string) : string :=
  match s with
  | EmptyString => s
  | String c1 s1 =>
      if space1 c1 then drop_space back s1
      else match s1 with
           | EmptyString => s
           | String c2 s2 =>
               if (if back then space2 c2 c1 else space2 c1 c2)
               then drop_space back s2
               else match s2 with
                    | EmptyString => s
                    | String c3 s3 =>
                        if (if back then space3 c3 c2 c1 else space3 c1 c2 c3)
                        then drop_space back s3
                        else s
                    end
           end
  end.

Definition lstrip (s : string) : string := drop_space false s.
Definition rstrip (s : string) : string :=
  String.rev (drop_space true (String.rev s)).
Definition strip (s : string) : string := rstrip (lstrip s).

End PyStr.

(** ** The filter module: data *)

(** [TorrentInfo], as far as the filter reads and writes it; title and
    description are taken to be strings. *)
Record TorrentInfo : Type := mkTorrent {
  title : string;
  description : string;
  pri_order : option Z
}.

Definition set_pri_order (t : TorrentInfo) (v : Z) : TorrentInfo :=
  {| title := title t; description := description t; pri_order := Some v |}.

(** One entry of [FilterModule.rule_set]: regular expressions that must all
    be found, and regular expressions none of which may be found. *)
Record rule : Type := mkRule {
  include : list string;
  exclude : list string
}.

(** What [ParseResults.as_list()] holds: rule names and operator words as
    strings, sub-expressions as nested lists. *)
Inductive rule_group : Type :=
  | RName (s : string)
  | RList (l : list rule_group).

(** [x == "not"] and the like: a list never equals a string. *)
Definition is_word (w : string) (x : rule_group) : bool :=
  match x with
  | RName s => String.eqb s w
  | RList _ => false
  end.

(** Python's truth value of what [__match_group] returns. *)
Definition truthy (v : option bool) : bool :=
  match v with
  | Some b => b
  | None => false
  end.

(** [not v], [a and b], [a or b]; the last two return an operand, and
    evaluate the right one only when the left one does not decide. *)
Definition py_not (v : option bool) : option bool := Some (negb (truthy v)).

Definition py_and (a : option bool) (b : res (option bool)) : res (option bool) :=
  if truthy a then b else Ok a.

Definition py_or (a : option bool) (b : res (option bool)) : res (option bool) :=
  if truthy a then Ok a else b.

(** The built-in table [FilterModule.rule_set], patterns verbatim. *)
Definition builtin_rule_set : gmap string rule :=
  list_to_map [
    ("BLU", mkRule ["Blu-?Ray.+VC-?1|Blu-?Ray.+AVC|UHD.+blu-?ray.+HEVC"] []);
    ("4K", mkRule ["4k|2160p|x2160"] []);
    ("1080P", mkRule ["1080[pi]|x1080"] []);
    ("CN", mkRule ["特效|[中国國繁简](/|\s|\\|\|)?[繁简英粤]|[英简繁](/|\s|\\|\|)?[中繁简]|繁體|简体|[中国國][字配]|国语|國語|中文"] []);
    ("H265", mkRule ["[Hx].?265"] []);
    ("H264", mkRule ["[Hx].?264"] []);
    ("DOLBY", mkRule ["DOLBY|DOVI|\s+DV$|\s+DV\s+"] []);
    ("HDR", mkRule ["\s+HDR\s+|HDR10|HDR10\+"] []);
    ("REMUX", mkRule ["REMUX"] [])
  ].

(** ** The filter module: operations *)

Section Filter.

(** [re.search(pattern, content, re.IGNORECASE)] as a truth value; the
    regular-expression engine is Python's. *)
Variable re_search : string → string → bool.

(** [RuleParser().parse(s).as_list()]; the parser may reject its input. *)
Variable parse : string → res (list rule_group).

(** [self.rule_set]. *)
Variable rule_set : gmap string rule.

Definition content (torrent : TorrentInfo) : string :=
  title torrent +:+ " " +:+ description torrent.

(** The two loops of [__match_rule]. *)
Fixpoint includes_found (text : string) (includes : list string) : bool :=
  match includes with
  | [] => true
  | inc :: rest =>
      if negb (re_search inc text) then false else includes_found text rest
  end.

Fixpoint excludes_absent (text : string) (excludes : list string) : bool :=
  match excludes with
  | [] => true
  | exc :: rest =>
      if re_search exc text then false else excludes_absent text rest
  end.

(** [__match_rule(torrent, rule_name)] for a string [rule_name]. *)
Definition match_rule (torrent : TorrentInfo) (rule_name : string) : bool :=
  match rule_set !! rule_name with
  | None => false
  | Some r =>
      if includes_found (content torrent) (include r)
      then excludes_absent (content torrent) (exclude r)
      else false
  end.

(** [__match_rule(torrent, x)] for any element [x] of a group: a list is
    not hashable, so [self.rule_set.get] raises [TypeError] on it. *)
Definition match_rule_of (torrent : TorrentInfo) (x : rule_group) : res (option bool) :=
  match x with
  | RName n => Ok (Some (match_rule torrent n))
  | RList _ => Raise TypeError
  end.

(** [__match_group(torrent, rule_group)]. The inner function is the body
    for a list argument: [l] is [rule_group], [rest1] is [rule_group[1:]]
    and [rest2] is [rule_group[2:]]. Indexing the empty list raises
    [IndexError]; a group that fits no branch falls off the end of the
    function, which returns [None]. *)
Fixpoint match_group (torrent : TorrentInfo) (g : rule_group) : res (option bool) :=
  match g with
  | RName n => Ok (Some (match_rule torrent n))
  | RList l =>
      (fix match_list (l : list rule_group) : res (option bool) :=
         match l with
         | [] => Raise IndexError
         | [x] => match_rule_of torrent x
         | x :: ((y :: rest2) as rest1) =>
             if is_word "not" x then
               v ← match_list rest1; Ok (py_not v)
             else if is_word "and" y then
               a ← match_group torrent x; py_and a (match_list rest2)
             else if is_word "or" y then
               a ← match_group torrent x; py_or a (match_list rest2)
             else Ok None
         end) l
  end.

(** [parsed_group.as_list()[0]]. *)
Definition first_of (parsed : list rule_group) : res rule_group :=
  match parsed with
  | [] => Raise IndexError
  | g :: _ => Ok g
  end.

(** One turn of the loop of [__get_order]: does the tier [rule_group]
    (a piece of the rule string) match the torrent? *)
Definition tier_matches (torrent : TorrentInfo) (rule_group : string) : res bool :=
  parsed ← parse (PyStr.strip rule_group);
  g ← first_of parsed;
  v ← match_group torrent g;
  Ok (truthy v).

(** The loop of [__get_order], with [res_order] as it stands on entry. *)
Fixpoint get_order_from (torrent : TorrentInfo) (rule_groups : list string)
    (res_order : Z) : res (option TorrentInfo) :=
  match rule_groups with
  | [] => Ok None
  | rule_group :: rest =>
      m ← tier_matches torrent rule_group;
      if m : bool then Ok (Some (set_pri_order torrent res_order))
      else get_order_from torrent rest (res_order - 1)
  end.

(** [__get_order(torrent, rule_str)]: the torrent with its priority, or
    [None]. *)
Definition get_order (torrent : TorrentInfo) (rule_str : string) : res (option TorrentInfo) :=
  get_order_from torrent (PyStr.split ">" rule_str) 100.

(** [filter_torrents(torrent_list)], with [settings.FILTER_RULE] passed
    as [rule_str]. *)
Fixpoint filter_torrents (torrent_list : list TorrentInfo) (rule_str : string)
    : res (list TorrentInfo) :=
  match torrent_list with
  | [] => Ok []
  | torrent :: rest =>
      o ← get_order torrent rule_str;
      ret ← filter_torrents rest rule_str;
      Ok (match o with Some t => t :: ret | None => ret end)
  end.

End Filter.

(** ** Insertion-ordered dictionaries

    Python's [dict] keeps its keys in the order of their first insertion;
    [Scheduler.list] iterates over [self._jobs] in that order. *)

Module ODict.
Section Ops.
Context {V : Type}.

(** [d.get(k)] *)
Fixpoint get (k : string) (d : list (string * V)) : option V :=
  match d with
  | [] => None
  | (k', v) :: d' => if decide (k' = k) then Some v else get k d'
  end.

(** [d[k] = v]: in place when [k] is a key, at the end otherwise. *)
Fixpoint set (k : string) (v : V) (d : list (string * V)) : list (string * V) :=
  match d with
  | [] => [(k, v)]
  | (k', v') :: d' =>
      if decide (k' = k) then (k, v) :: d' else (k', v') :: set k v d'
  end.

(** [d.pop(k, None)], the result dropped. *)
Fixpoint pop (k : string) (d : list (string * V)) : list (string * V) :=
  match d with
  | [] => []
  | (k', v') :: d' =>
      if decide (k' = k) then pop k d' else (k', v') :: pop k d'
  end.

Definition keys (d : list (string * V)) : list string := d.*1.

(** What a [dict] guarantees: no key twice. *)
Definition wf (d : list (string * V)) : Prop := NoDup (keys d).
End Ops.
End ODict.

(** ** The scheduler: data *)

(** A value stored under a key of a descriptor that may be missing
    ([Absent]), hold [None] ([Null]) or hold a value. *)
Inductive field (A : Type) : Type :=
  | Absent
  | Null
  | Val (a : A).
Arguments Absent {A}.
Arguments Null {A}.
Arguments Val {A} a.

(** Keyword arguments, in the order given; positional arguments. Argument
    values and callables are named by strings. *)
Abbreviation kwargs_t := (list (string * string)).
Abbreviation args_t := (list string).

(** One value of [self._jobs]. The built-in descriptors have the keys
    [func], [running] and sometimes [kwargs]; those of plug-ins have
    [func], [name], [pid], [plugin_name] and [running]. *)
Record job : Type := mkJob {
  func : string;
  name : option string;
  pid : option string;
  plugin_name : field string;
  running : bool;
  kwargs : option kwargs_t
}.

Definition set_running (b : bool) (j : job) : job :=
  {| func := func j; name := name j; pid := pid j;
     plugin_name := plugin_name j; running := b; kwargs := kwargs j |}.

(** A job of the trigger subsystem (APScheduler): its id, its name and the
    time it fires next. *)
Record trigger : Type := mkTrigger {
  tid : string;
  tname : string;
  next_run_time : Z
}.

Inductive log_entry : Type :=
  | WarnRunning (job_id : string)                (* 定时任务 .. 正在运行 ... *)
  | ErrorFailed (job_id : string) (e : exn)      (* 定时任务 .. 执行失败 *)
  | ErrorPlugin (pid : string) (e : exn)         (* 运行插件 .. 服务失败 *)
  | InfoRegistered (plugin : option string) (name : string)
  | ErrorRegister (plugin : option string) (e : exn) (sid : string)
  | InfoRemoved (plugin : option string) (name : option string)
  | ErrorRemove (e : exn) (job_id : string).

(** The scheduler object: [self._jobs], the jobs of [self._scheduler], and
    what has been logged, oldest first. *)
Record sched : Type := mkSched {
  jobs : list (string * job);
  triggers : list trigger;
  log : list log_entry
}.

Definition with_jobs (st : sched) (d : list (string * job)) : sched :=
  {| jobs := d; triggers := triggers st; log := log st |}.
Definition with_triggers (st : sched) (l : list trigger) : sched :=
  {| jobs := jobs st; triggers := l; log := log st |}.
Definition add_log (st : sched) (e : log_entry) : sched :=
  {| jobs := jobs st; triggers := triggers st; log := log st ++ [e] |}.

(** A call of a job body: the callable, its positional and its keyword
    arguments. *)
Record call : Type := mkCall {
  call_func : string;
  call_args : args_t;
  call_kwargs : kwargs_t
}.

(** One element of what a plug-in's [get_service] returns; [snext] is the
    first fire time the trigger subsystem computes from [trigger] and
    [kwargs]. *)
Record service : Type := mkService {
  sid : string;
  sname : string;
  sfunc : string;
  snext : Z
}.

Inductive status : Type :=
  | StRunning     (* 正在运行 *)
  | StWaiting.    (* 等待 *)

(** [schemas.ScheduleInfo] *)
Record ScheduleInfo : Type := mkInfo {
  info_id : string;
  info_name : string;
  info_provider : option string;
  info_status : status;
  info_next_run : option string
}.

(** ** The trigger subsystem, as the scheduler uses it *)

Module Aps.

(** [get_job(job_id)]: the job with exactly this id, or [None]. *)
Definition get_job (job_id : string) (l : list trigger) : option trigger :=
  List.find (λ t, bool_decide (tid t = job_id)) l.

(** [remove_job(job_id)]: raises [JobLookupError] when no job has exactly
    this id. *)
Definition remove_job (job_id : string) (l : list trigger) : res (list trigger) :=
  match get_job job_id l with
  | None => Raise JobLookupError
  | Some _ => Ok (List.filter (λ t, negb (bool_decide (tid t = job_id))) l)
  end.

(** [add_job(..., id=sid, name=name, ...)] on a started scheduler:
    raises [ConflictingIdError] when the id is taken. *)
Definition add_job (t : trigger) (l : list trigger) : res (list trigger) :=
  match get_job (tid t) l with
  | Some _ => Raise ConflictingIdError
  | None => Ok (l ++ [t])
  end.

(** [jobs.sort(key=lambda x: x.next_run_time)]: a stable sort. *)
Fixpoint insert_by_time (t : trigger) (l : list trigger) : list trigger :=
  match l with
  | [] => [t]
  | u :: l' =>
      if next_run_time t <=? next_run_time u then t :: u :: l'
      else u :: insert_by_time t l'
  end.

Definition sort_by_time (l : list trigger) : list trigger :=
  foldr insert_by_time [] l.

End Aps.

(** [sid.split("|")[0]]: the logical job id of a trigger id. *)
Definition logical_id (sid : string) : string :=
  match PyStr.split "|" sid with
  | s :: _ => s
  | [] => sid
  end.

(** ** The scheduler: operations *)

(** Truth value of a string: the empty string is false. *)
Definition nonempty (s : string) : bool := negb (String.eqb s "").

(** [kwargs] as [start] passes them on: [job.get("kwargs") or {}] when the
    caller gave none. *)
Definition effective_kwargs (j : job) (kw : kwargs_t) : kwargs_t :=
  match kw with
  | [] => match kwargs j with
          | Some d => d
          | None => []
          end
  | _ :: _ => kw
  end.

(** The first block of [start], under the lock: look the descriptor up,
    give up when it is missing or running, else mark it running. The
    second component is the call of the job body that follows, if any. *)
Definition start_enter (st : sched) (job_id : string) (args : args_t) (kw : kwargs_t)
    : sched * option call :=
  match ODict.get job_id (jobs st) with
  | None => (st, None)
  | Some j =>
      if running j then (add_log st (WarnRunning job_id), None)
      else (with_jobs st (ODict.set job_id (set_running true j) (jobs st)),
            Some (mkCall (func j) args (effective_kwargs j kw)))
  end.

(** What follows the call of the job body: an exception of the body is
    logged; then, under the lock, [running] is reset if the descriptor is
    still there, and the descriptor is dropped when
    [self._scheduler.get_job(job_id)] finds nothing. *)
Definition start_exit (st : sched) (job_id : string) (outcome : option exn) : sched :=
  let st1 := match outcome with
             | Some e => add_log st (ErrorFailed job_id e)
             | None => st
             end in
  let d1 := match ODict.get job_id (jobs st1) with
            | Some j => ODict.set job_id (set_running false j) (jobs st1)
            | None => jobs st1
            end in
  let d2 := match Aps.get_job job_id (triggers st1) with
            | None => ODict.pop job_id d1
            | Some _ => d1
            end in
  with_jobs st1 d2.

(** [start(job_id, *args, **kwargs)] run by one thread alone; [body] is
    the job body, which may itself act on the scheduler. *)
Definition start (body : call → sched → sched * option exn) (st : sched)
    (job_id : string) (args : args_t) (kw : kwargs_t) : sched :=
  match start_enter st job_id args kw with
  | (st1, None) => st1
  | (st1, Some c) => let '(st2, outcome) := body c st1 in start_exit st2 job_id outcome
  end.

(** One turn of the loop of [remove_plugin_job]; [plugin_name] is what
    [get_plugin_attr(pid, "plugin_name")] gave. *)
Definition remove_one (pid0 : string) (plugin_name : option string)
    (st : sched) (item : string * job) : sched :=
  let '(job_id, service) := item in
  if bool_decide (pid service = Some pid0) then
    let st1 := with_jobs st (ODict.pop job_id (jobs st)) in
    match Aps.remove_job job_id (triggers st1) with
    | Ok l => add_log (with_triggers st1 l) (InfoRemoved plugin_name (name service))
    | Raise JobLookupError => add_log st1 (InfoRemoved plugin_name (name service))
    | Raise e => add_log st1 (ErrorRemove e job_id)
    end
  else st.

(** [remove_plugin_job(pid)]: the loop runs over a copy of [self._jobs]. *)
Definition remove_plugin_job (st : sched) (pid0 : string) (plugin_name : option string) : sched :=
  foldl (remove_one pid0 plugin_name) st (jobs st).

(** One turn of the loop of [update_plugin_job]. *)
Definition register_one (pid0 : string) (plugin_name : option string)
    (st : sched) (s : service) : sched :=
  let job_id := logical_id (sid s) in
  let st1 :=
    match ODict.get job_id (jobs st) with
    | Some _ => st
    | None =>
        with_jobs st (ODict.set job_id
          {| func := sfunc s; name := Some (sname s); pid := Some pid0;
             plugin_name := match plugin_name with Some n => Val n | None => Null end;
             running := false; kwargs := None |} (jobs st))
    end in
  match Aps.add_job (mkTrigger (sid s) (sname s) (snext s)) (triggers st1) with
  | Ok l => add_log (with_triggers st1 l) (InfoRegistered plugin_name (sname s))
  | Raise e => add_log st1 (ErrorRegister plugin_name e (sid s))
  end.

(** The second block of [update_plugin_job]; [services] is what the
    plug-in's [get_service] gave, or the exception it raised. *)
Definition register_plugin_services (st : sched) (pid0 : string)
    (services : res (list service)) (plugin_name : option string) : sched :=
  match services with
  | Raise e => add_log st (ErrorPlugin pid0 e)
  | Ok l => foldl (register_one pid0 plugin_name) st l
  end.

(** [update_plugin_job(pid)] run by one thread alone. *)
Definition update_plugin_job (st : sched) (pid0 : string)
    (services : res (list service)) (plugin_name : option string) : sched :=
  register_plugin_services (remove_plugin_job st pid0 plugin_name) pid0 services plugin_name.

Section ListJobs.

(** [TimerUtils.time_difference]: the text shown for a fire time. *)
Variable time_difference : Z → string.

(** The first loop of [list], over [self._jobs.items()]: the entries
    appended to [schedulers], and [added] as the loop leaves it. *)
Fixpoint list_running (items : list (string * job)) (added : list string)
    : list ScheduleInfo * list string :=
  match items with
  | [] => ([], added)
  | (job_id, service) :: rest =>
      match name service, plugin_name service with
      | Some n, Val p =>
          if running service && nonempty n && nonempty p then
            let added' := if bool_decide (n ∈ added) then added else (added ++ [n])%list in
            let '(out, fin) := list_running rest added' in
            (mkInfo job_id n (Some p) StRunning None :: out, fin)
          else list_running rest added
      | _, _ => list_running rest added
      end
  end.

(** [service.get("plugin_name", "[系统]")] *)
Definition provider_of (service : job) : option string :=
  match plugin_name service with
  | Absent => Some "[系统]"
  | Null => None
  | Val p => Some p
  end.

(** The second loop of [list], over the sorted jobs of the trigger
    subsystem. *)
Fixpoint list_waiting (d : list (string * job)) (sorted : list trigger)
    (added : list string) : list ScheduleInfo :=
  match sorted with
  | [] => []
  | t :: rest =>
      if bool_decide (tname t ∈ added) then list_waiting d rest added
      else
        let added' := (added ++ [tname t])%list in
        let job_id := logical_id (tid t) in
        match ODict.get job_id d with
        | None => list_waiting d rest added'
        | Some service =>
            mkInfo job_id (tname t) (provider_of service)
                   (if running service then StRunning else StWaiting)
                   (Some (time_difference (next_run_time t)))
            :: list_waiting d rest added'
        end
  end.

(** [list()] *)
Definition sched_list (st : sched) : list ScheduleInfo :=
  let sorted := Aps.sort_by_time (triggers st) in
  let '(first, added) := list_running (jobs st) [] in
  (first ++ list_waiting (jobs st) sorted added)%list.

End ListJobs.

(** ** Threads

    The lock is held over each block of [start], [remove_plugin_job] and
    [update_plugin_job], and released while a job body runs. A run of the
    program is therefore a sequence of these blocks in some order; between
    the two blocks of one [start] the job body is executing. *)

Record system : Type := mkSystem {
  sched_of : sched;
  executing : list string     (* ids whose body is executing, one per thread *)
}.

Inductive action : Type :=
  | AStart (job_id : string) (args : args_t) (kw : kwargs_t)
  | AFinish (job_id : string) (outcome : option exn)
  | ARemovePlugin (pid0 : string) (plugin_name : option string)
  | ARegisterPlugin (pid0 : string) (services : res (list service)) (plugin_name : option string)
  | ATriggerGone (id : string).

(** Removes one occurrence. *)
Fixpoint remove_first (x : string) (l : list string) : list string :=
  match l with
  | [] => []
  | y :: l' => if decide (y = x) then l' else y :: remove_first x l'
  end.

(** How many bodies of [job_id] are executing. *)
Definition executions (job_id : string) (sys : system) : nat :=
  List.length (List.filter (λ y, bool_decide (y = job_id)) (executing sys)).

(** One block; [None] when the action cannot happen: a body that is not
    executing cannot finish. *)
Definition step (a : action) (sys : system) : option system :=
  match a with
  | AStart job_id args kw =>
      match start_enter (sched_of sys) job_id args kw with
      | (st, None) => Some (mkSystem st (executing sys))
      | (st, Some _) => Some (mkSystem st (job_id :: executing sys))
      end
  | AFinish job_id outcome =>
      if bool_decide (job_id ∈ executing sys) then
        Some (mkSystem (start_exit (sched_of sys) job_id outcome)
                       (remove_first job_id (executing sys)))
      else None
  | ARemovePlugin pid0 plugin_name =>
      Some (mkSystem (remove_plugin_job (sched_of sys) pid0 plugin_name) (executing sys))
  | ARegisterPlugin pid0 services plugin_name =>
      Some (mkSystem (register_plugin_services (sched_of sys) pid0 services plugin_name)
                     (executing sys))
  | ATriggerGone id =>
      Some (mkSystem
              (with_triggers (sched_of sys)
                 (List.filter (λ t, negb (bool_decide (tid t = id))) (triggers (sched_of sys))))
              (executing sys))
  end.

Fixpoint run (l : list action) (sys : system) : option system :=
  match l with
  | [] => Some sys
  | a :: l' =>
      match step a sys with
      | Some sys' => run l' sys'
      | None => None
      end
  end.

(** ** Stand-ins for the two collaborators of the filter

    [re] is Python's library and [RuleParser] is not among the sources of
    this development; the properties of the filter's own functions are
    proved for every [re_search] and every [parse]. To evaluate the filter
    on concrete input both are instantiated here, and what depends on the
    parser itself, how [not] binds, is proved of the parser given here. *)

Module Sample.

Definition lower_char (c : ascii) : ascii :=
  let n := nat_of_ascii c in
  if (Nat.leb 65 n && Nat.leb n 90)%bool then ascii_of_nat (n + 32) else c.

Fixpoint lower (s : string) : string :=
  match s with
  | EmptyString => EmptyString
  | String c s' => String (lower_char c) (lower s')
  end.

Fixpoint contains (word text : string) : bool :=
  if String.prefix word text then true
  else match text with
       | EmptyString => false
       | String _ text' => contains word text'
       end.

(** [re.search] with [re.IGNORECASE], for the patterns that are plain
    words joined by [|] (those of the entries [4K] and [REMUX] are): one
    of the words occurs in the text, letter case apart. *)
Definition re_search (pattern text : string) : bool :=
  existsb (λ word, contains (lower word) (lower text)) (PyStr.split "|" pattern).

(** Cuts a tier string into words and parentheses. *)
Fixpoint tokenize (cur : string) (s : string) : list string :=
  let flush := match cur with EmptyString => [] | _ => [cur] end in
  match s with
  | EmptyString => flush
  | String c s' =>
      if PyStr.space1 c then (flush ++ tokenize EmptyString s')%list
      else if (Ascii.eqb c "(" || Ascii.eqb c ")")%bool
           then (flush ++ String c EmptyString :: tokenize EmptyString s')%list
           else tokenize (cur +:+ String c EmptyString) s'
  end.

(** Modelled from the spec: how the parser absent from the sources
    treats [not]. The word binds to the sub-expression that follows it at
    once, so the two become a group of their own, the rightmost [not]
    first; a [not] with nothing after it stays a word. *)
Fixpoint bind_not (seq : list rule_group) : list rule_group :=
  match seq with
  | [] => []
  | x :: rest =>
      if is_word "not" x then
        match bind_not rest with
        | operand :: rest' => RList [x; operand] :: rest'
        | [] => [x]
        end
      else x :: bind_not rest
  end.

(** A sequence of names, operator words and groups as one expression: a
    sequence of one element is that element. *)
Definition as_group (seq : list rule_group) : rule_group :=
  match bind_not seq with
  | [x] => x
  | l => RList l
  end.

(** Nests the words by the parentheses; [stack] holds the sequences that
    are still open, innermost first. *)
Fixpoint nest (toks : list string) (stack : list (list rule_group))
    (cur : list rule_group) : res (list rule_group) :=
  match toks with
  | [] => match stack with
          | [] => Ok cur
          | _ :: _ => Raise ParseException
          end
  | w :: rest =>
      if String.eqb w "(" then nest rest (cur :: stack) []
      else if String.eqb w ")" then
        match stack with
        | [] => Raise ParseException
        | up :: stack' => nest rest stack' (up ++ [as_group cur])%list
        end
      else nest rest stack (cur ++ [RName w])%list
  end.

(** The expression of a sequence of words and parentheses, as what
    [as_list()] returns: a list whose first element is the expression. *)
Definition parse_tokens (toks : list string) : res (list rule_group) :=
  seq ← nest toks [] [];
  match seq with
  | [] => Raise ParseException
  | _ :: _ => Ok [as_group seq]
  end.

(** Modelled from the spec: the parser of tier expressions ([RuleParser],
    absent from the sources). A tier is a sequence of predicate names, of
    the words [not], [and] and [or], and of parentheses. [not] binds to
    the sub-expression that follows it at once; [and] and [or] have no
    precedence between them, and grouping comes from explicit parentheses
    only, so an expression is the list of its operands and operator
    words, with a nested list for each [not] and its operand and for each
    parenthesised part. A string without any word, or with unbalanced
    parentheses, is rejected. *)
Definition parse (s : string) : res (list rule_group) :=
  parse_tokens (tokenize EmptyString s).

(** The filter with the stand-ins and the built-in table. *)
Definition match_group := match_group re_search builtin_rule_set.
Definition get_order := get_order re_search parse builtin_rule_set.
Definition filter_torrents := filter_torrents re_search parse builtin_rule_set.

End Sample.

(** ** Concrete inputs *)

Module Scenario.

Definition remux_2160p : TorrentInfo := mkTorrent "Show.2023.2160p.REMUX" "" None.
Definition sd_720p : TorrentInfo := mkTorrent "Show.2023.720p" "" None.
Definition remux_1080p : TorrentInfo := mkTorrent "Movie 1080p Remux" "x264" None.

(** A built-in descriptor, as [__init__] creates them. *)
Definition builtin (f : string) (kw : option kwargs_t) (r : bool) : job :=
  {| func := f; name := None; pid := None; plugin_name := Absent;
     running := r; kwargs := kw |}.

(** A descriptor of a plug-in, as [update_plugin_job] creates them. *)
Definition plugin_job (f n p pn : string) (r : bool) : job :=
  {| func := f; name := Some n; pid := Some p; plugin_name := Val pn;
     running := r; kwargs := None |}.

(** [subscribe_refresh] in spider mode: one descriptor, and cron triggers
    under the ids [subscribe_refresh|hour:minute] (two of the thirty). *)
Definition spider : sched :=
  {| jobs := [("subscribe_search", builtin "SubscribeChain.search" (Some [("state", "R")]) false);
              ("subscribe_refresh", builtin "SubscribeChain.refresh" None false)];
     triggers := [mkTrigger "subscribe_search" "订阅搜索" 500;
                  mkTrigger "subscribe_refresh|3:15" "订阅刷新" 100;
                  mkTrigger "subscribe_refresh|9:40" "订阅刷新" 200];
     log := [] |}.

(** A job body that returns at once and leaves the scheduler alone. *)
Definition quiet_body (c : call) (st : sched) : sched * option exn := (st, None).

(** A plug-in [p] with one job [jobA] fired by two triggers, [jobA|1] and
    [jobA|2]. *)
Definition services_p : list service :=
  [mkService "jobA|1" "Sync" "Plugin.sync" 10; mkService "jobA|2" "Sync" "Plugin.sync" 20].

Definition with_plugin : sched :=
  register_plugin_services {| jobs := []; triggers := []; log := [] |}
    "p" (Ok services_p) (Some "P").

(** Two running jobs of a plug-in under one display name. *)
Definition same_name : sched :=
  {| jobs := [("a", plugin_job "Plugin.a" "Sync" "p" "P" true);
              ("b", plugin_job "Plugin.b" "Sync" "p" "P" true)];
     triggers := [mkTrigger "a" "Sync" 10; mkTrigger "b|1" "Backup" 5];
     log := [] |}.

Definition no_text (t : Z) : string := "".

(** A plug-in job with one trigger of its own id, nothing executing. *)
Definition idle : system :=
  {| sched_of := {| jobs := [("jobA", plugin_job "Plugin.sync" "Sync" "p" "P" false)];
                    triggers := [mkTrigger "jobA" "Sync" 10];
                    log := [] |};
     executing := [] |}.

(** The plug-in is reconfigured while its job runs: [update_plugin_job]
    is its two blocks, and the trigger fires again. *)
Definition reconfigure : list action :=
  [AStart "jobA" [] [];
   ARemovePlugin "p" (Some "P");
   ARegisterPlugin "p" (Ok [mkService "jobA" "Sync" "Plugin.sync" 30]) (Some "P");
   AStart "jobA" [] []].

(** The trigger fires twice while the body runs. *)
Definition twice : list action :=
  [AStart "jobA" [] []; AStart "jobA" [] []].

End Scenario.

(** ** Words used to state the properties of group evaluation *)

Inductive binop : Type := OpAnd | OpOr.

Definition op_word (o : binop) : string :=
  match o with
  | OpAnd => "and"
  | OpOr => "or"
  end.

Definition eval_op (o : binop) (a b : bool) : bool :=
  match o with
  | OpAnd => a && b
  | OpOr => a || b
  end.

(** ** More concrete inputs *)

Module Cases.

(** The plug-in job of [Scenario.idle] while its body is executing. *)
Definition busy : sched :=
  {| jobs := [("jobA", Scenario.plugin_job "Plugin.sync" "Sync" "p" "P" true);
              ("transfer", Scenario.builtin "TransferChain.process" None false)];
     triggers := [mkTrigger "jobA" "Sync" 10; mkTrigger "transfer" "下载文件整理" 20];
     log := [] |}.

(** What the plug-in's [get_service] gives after it has been reconfigured:
    its job, and a service under the id of a built-in job. *)
Definition services_new : list service :=
  [mkService "jobA" "Sync" "Plugin.sync" 30;
   mkService "transfer|x" "Move" "Plugin.move" 40].

(** The tiers [REMUX or X and Y]. *)
Definition mixed_chain : list (string * binop) := [("REMUX", OpOr); ("X", OpAnd)].

End Cases.

(** ** Words used to state further properties of the filter *)

(** How often the character occurs in the string. *)
Fixpoint count_char (c : ascii) (s : string) : nat :=
  match s with
  | EmptyString => 0
  | String c' s' => (if Ascii.eqb c' c then 1 else 0) + count_char c s'
  end.

(** [sep.join(pieces)] *)
Fixpoint join (sep : ascii) (pieces : list string) : string :=
  match pieces with
  | [] => EmptyString
  | [w] => w
  | w :: ws => w +:+ String sep (join sep ws)
  end.

(** Two torrents with the same title and the same description. *)
Definition same_text (a b : TorrentInfo) : Prop :=
  title a = title b ∧ description a = description b.

(** The flat group [A1 op1 A2 op2 ... An op_n last]: names and operator
    words in a row, without nesting. *)
Fixpoint flat_chain (ops : list (string * binop)) (last : string) : list rule_group :=
  match ops with
  | [] => [RName last]
  | (a, o) :: rest => RName a :: RName (op_word o) :: flat_chain rest last
  end.

(** Its truth value folded from the right: [A1 op1 (A2 op2 (... last))]. *)
Fixpoint fold_chain (value : string → bool) (ops : list (string * binop))
    (last : string) : bool :=
  match ops with
  | [] => value last
  | (a, o) :: rest => eval_op o (value a) (fold_chain value rest last)
  end.

(** ** Words used to state the properties of the scheduler *)

(** A descriptor that the first loop of [list] shows: running, with a
    display name and a provider, neither of them empty. *)
Definition shown (j : job) : bool :=
  match name j, plugin_name j with
  | Some n, Val p => running j && nonempty n && nonempty p
  | _, _ => false
  end.

(** No block of [update_plugin_job] registers a service of a job whose
    body is executing at that time. *)
Definition registers_idle (a : action) (sys : system) : Prop :=
  match a with
  | ARegisterPlugin _ (Ok l) _ => ∀ s, s ∈ l → logical_id (sid s) ∉ executing sys
  | _ => True
  end.

Fixpoint undisturbed (l : list action) (sys : system) : Prop :=
  match l with
  | [] => True
  | a :: l' =>
      registers_idle a sys ∧
      match step a sys with
      | Some sys' => undisturbed l' sys'
      | None => True
      end
  end.

(** At most one body per job id is executing, and the descriptor of a job
    whose body is executing, if it is in the table, is marked running. *)
Definition exclusive (sys : system) : Prop :=
  ∀ id, (executions id sys ≤ 1)%nat ∧
        (id ∈ executing sys →
         ∀ j, ODict.get id (jobs (sched_of sys)) = Some j → running j = true).

(** The tier of index [k] is the first one that matches: it evaluates to
    true, and every tier before it evaluates to false. *)
Definition first_tier (re_search : string → string → bool)
    (parse : string → res (list rule_group)) (rule_set : gmap string rule)
    (torrent : TorrentInfo) (tiers : list string) (k : nat) : Prop :=
  (∃ g, tiers !! k = Some g ∧ tier_matches re_search parse rule_set torrent g = Ok true) ∧
  (∀ j g, (j < k)%nat → tiers !! j = Some g →
          tier_matches re_search parse rule_set torrent g = Ok false).

(** Every tier evaluates to false. *)
Definition no_tier (re_search : string → string → bool)
    (parse : string → res (list rule_group)) (rule_set : gmap string rule)
    (torrent : TorrentInfo) (tiers : list string) : Prop :=
  ∀ g, g ∈ tiers → tier_matches re_search parse rule_set torrent g = Ok false.

(** Some tier raises [e], every tier before it having evaluated to false. *)
Definition tier_raises (re_search : string → string → bool)
    (parse : string → res (list rule_group)) (rule_set : gmap string rule)
    (torrent : TorrentInfo) (tiers : list string) (e : exn) : Prop :=
  ∃ k g, tiers !! k = Some g ∧
         tier_matches re_search parse rule_set torrent g = Raise e ∧
         ∀ j g', (j < k)%nat → tiers !! j = Some g' →
                 tier_matches re_search parse rule_set torrent g' = Ok false.

(** * Properties of the filter module *)

Section FilterFacts.

Variable re_search : string → string → bool.
Variable parse : string → res (list rule_group).
Variable rule_set : gmap string rule.

Local Abbreviation rule_holds := (match_rule re_search rule_set).
Local Abbreviation group_value := (match_group re_search rule_set).
Local Abbreviation tier := (tier_matches re_search parse rule_set).
Local Abbreviation order_from := (get_order_from re_search parse rule_set).
Local Abbreviation order := (get_order re_search parse rule_set).
Local Abbreviation filtered := (filter_torrents re_search parse rule_set).
Local Abbreviation first := (first_tier re_search parse rule_set).
Local Abbreviation none := (no_tier re_search parse rule_set).
Local Abbreviation raises := (tier_raises re_search parse rule_set).

Lemma includes_found_all text l :
  includes_found re_search text l = true ↔ ∀ p, p ∈ l → re_search p text = true.
Proof.
  induction l as [|p l IH]; simpl.
  - split; [intros _ q Hq; inversion Hq | done].
  - destruct (re_search p text) eqn:Hp; simpl.
    + rewrite IH. split.
      * intros H q Hq. apply elem_of_cons in Hq as [->|Hq]; auto.
      * intros H q Hq. apply H. by right.
    + split; [done|]. intros H. rewrite <- Hp. apply H. by left.
Qed.

Lemma excludes_absent_all text l :
  excludes_absent re_search text l = true ↔ ∀ p, p ∈ l → re_search p text = false.
Proof.
  induction l as [|p l IH]; simpl.
  - split; [intros _ q Hq; inversion Hq | done].
  - destruct (re_search p text) eqn:Hp; simpl.
    + split; [done|]. intros H. rewrite <- Hp. symmetry. apply H. by left.
    + rewrite IH. split.
      * intros H q Hq. apply elem_of_cons in Hq as [->|Hq]; auto.
      * intros H q Hq. apply H. by right.
Qed.

(** C5. [__match_rule] answers [False] for a name that is not in the
    predicate table. For a name that is, with the text made of the title,
    one blank and the description, it answers [True] exactly when every
    include pattern is found in the text and no exclude pattern is. *)
Theorem match_rule_spec (torrent : TorrentInfo) (rule_name : string) :
  (rule_set !! rule_name = None → rule_holds torrent rule_name = false) ∧
  (∀ r, rule_set !! rule_name = Some r →
     (rule_holds torrent rule_name = true ↔
        (∀ p, p ∈ include r →
           re_search p (title torrent +:+ " " +:+ description torrent) = true) ∧
        (∀ p, p ∈ exclude r →
           re_search p (title torrent +:+ " " +:+ description torrent) = false))).
Proof.
  unfold match_rule, content. split.
  - intros ->. reflexivity.
  - intros r ->. rewrite <- includes_found_all, <- excludes_absent_all.
    destruct (includes_found _ _ _); simpl; [|split; [done | by intros [? _]]].
    split; [by intros -> | by intros [_ ->]].
Qed.

Lemma is_word_name w s : is_word w (RName s) = false ↔ s ≠ w.
Proof. simpl. apply String.eqb_neq. Qed.

Lemma is_word_op_and o : is_word "and" (RName (op_word o)) = match o with OpAnd => true | OpOr => false end.
Proof. by destruct o. Qed.

Lemma is_word_op_or o : is_word "or" (RName (op_word o)) = match o with OpAnd => false | OpOr => true end.
Proof. by destruct o. Qed.

(** What [__match_group] does with a group that starts with [not] and
    has more than one element: it negates the value of all that follows. *)
Lemma match_group_not torrent y rest :
  group_value torrent (RList (RName "not" :: y :: rest)) =
  (v ← group_value torrent (RList (y :: rest)); Ok (py_not v)).
Proof. reflexivity. Qed.

(** A group of two names around an operator word. *)
Lemma match_group_binary torrent A o B :
  A ≠ "not" →
  group_value torrent (RList [RName A; RName (op_word o); RName B]) =
  Ok (Some (eval_op o (rule_holds torrent A) (rule_holds torrent B))).
Proof.
  intros HA. apply (is_word_name "not") in HA. simpl in *. rewrite HA.
  destruct o; simpl; unfold py_and, py_or; simpl;
    by destruct (rule_holds torrent A).
Qed.

(** A group that is handed over flat, [not] first, is negated as a whole:
    [__match_group] itself does not single out the operand of [not]. *)
Lemma not_negates_remainder (torrent : TorrentInfo) (A B : string) (o : binop)
    (HA : A ≠ "not") :
  group_value torrent (RList [RName "not"; RName A; RName (op_word o); RName B]) =
  Ok (Some (negb (eval_op o (rule_holds torrent A) (rule_holds torrent B)))).
Proof.
  rewrite match_group_not, match_group_binary by done. reflexivity.
Qed.

(** When [not] and its operand are a group of their own, as the parser
    hands them over, [not] negates that operand alone. *)
Lemma nested_not_value (torrent : TorrentInfo) (A B : string) (o : binop) :
  group_value torrent
    (RList [RList [RName "not"; RName A]; RName (op_word o); RName B]) =
  Ok (Some (eval_op o (negb (rule_holds torrent A)) (rule_holds torrent B))).
Proof.
  destruct o; simpl; unfold py_and, py_or, py_not; simpl;
    by destruct (rule_holds torrent A).
Qed.

(** C4. A flat chain [A op1 B op2 C] evaluates as [A op1 (B op2 C)],
    whichever of [and] and [or] the two operators are; so whenever the
    left-folded [(A op1 B) op2 C] has another value, that value is not
    what the code returns. *)
Theorem chain_folds_right (torrent : TorrentInfo) (A B C : string) (o1 o2 : binop)
    (HA : A ≠ "not") (HB : B ≠ "not") :
  let a := rule_holds torrent A in
  let b := rule_holds torrent B in
  let c := rule_holds torrent C in
  group_value torrent
    (RList [RName A; RName (op_word o1); RName B; RName (op_word o2); RName C]) =
    Ok (Some (eval_op o1 a (eval_op o2 b c))) ∧
  (eval_op o1 a (eval_op o2 b c) ≠ eval_op o2 (eval_op o1 a b) c →
   group_value torrent
     (RList [RName A; RName (op_word o1); RName B; RName (op_word o2); RName C]) ≠
     Ok (Some (eval_op o2 (eval_op o1 a b) c))).
Proof.
  intros a b c.
  assert (group_value torrent
    (RList [RName A; RName (op_word o1); RName B; RName (op_word o2); RName C]) =
    Ok (Some (eval_op o1 a (eval_op o2 b c)))) as Heq.
  { pose proof (match_group_binary torrent B o2 C HB) as Hrest.
    apply (is_word_name "not") in HA. simpl in *. rewrite HA.
    destruct o1; simpl; rewrite Hrest; unfold py_and, py_or; simpl;
      fold a b c; by destruct a. }
  split; [exact Heq|]. rewrite Heq. intros Hne [=]. done.
Qed.

(** The loop of [__get_order], tier by tier. *)
Lemma order_from_cons torrent g rest n :
  order_from torrent (g :: rest) n =
  match tier torrent g with
  | Ok true => Ok (Some (set_pri_order torrent n))
  | Ok false => order_from torrent rest (n - 1)
  | Raise e => Raise e
  end.
Proof. simpl. by destruct (tier torrent g) as [[]|]. Qed.

Lemma first_here torrent g rest :
  tier torrent g = Ok true → first torrent (g :: rest) 0%nat.
Proof. intros H. split; [by exists g | intros j g' Hj; lia]. Qed.

Lemma first_later torrent g rest k :
  tier torrent g = Ok false → first torrent rest k → first torrent (g :: rest) (S k).
Proof.
  intros H [Hk Hbefore]. split; [exact Hk|].
  intros [|j] g' Hj Hl; simpl in Hl; [by simplify_eq|].
  apply (Hbefore j); [lia | done].
Qed.

Lemma none_cons torrent g rest :
  tier torrent g = Ok false → none torrent rest → none torrent (g :: rest).
Proof. intros H Hr g' [->|Hin]%elem_of_cons; auto. Qed.

Lemma raises_here torrent g rest e :
  tier torrent g = Raise e → raises torrent (g :: rest) e.
Proof. intros H. exists 0%nat, g. split_and!; [done..|intros; lia]. Qed.

Lemma raises_later torrent g rest e :
  tier torrent g = Ok false → raises torrent rest e → raises torrent (g :: rest) e.
Proof.
  intros H (k & g' & Hk & He & Hbefore). exists (S k), g'. split_and!; [done..|].
  intros [|j] g'' Hj Hl; simpl in Hl; [by simplify_eq|].
  apply (Hbefore j); [lia | done].
Qed.

(** The three ways [__get_order] can end. *)
Lemma order_from_cases torrent tiers n :
  match order_from torrent tiers n with
  | Ok (Some t') =>
      ∃ k, first torrent tiers k ∧ t' = set_pri_order torrent (n - Z.of_nat k)
  | Ok None => none torrent tiers
  | Raise e => raises torrent tiers e
  end.
Proof.
  revert n. induction tiers as [|g rest IH]; intros n.
  - simpl. intros g Hg. inversion Hg.
  - rewrite order_from_cons. destruct (tier torrent g) as [[]|e] eqn:Hg.
    + exists 0%nat. split; [by apply first_here|]. f_equal. lia.
    + specialize (IH (n - 1)). destruct (order_from torrent rest (n - 1)) as [[t'|]|e].
      * destruct IH as (k & Hk & ->). exists (S k).
        split; [by apply first_later|]. f_equal. lia.
      * by apply none_cons.
      * by apply raises_later.
    + by apply raises_here.
Qed.

(** The outcomes exclude one another. *)
Lemma first_not_none torrent tiers k : first torrent tiers k → ¬ none torrent tiers.
Proof.
  intros [(g & Hg & Ht) _] Hn.
  rewrite (Hn g) in Ht; [done|]. by eapply list_elem_of_lookup_2.
Qed.

Lemma first_unique torrent tiers k k' :
  first torrent tiers k → first torrent tiers k' → k = k'.
Proof.
  intros [(g & Hg & Ht) Hb] [(g' & Hg' & Ht') Hb'].
  destruct (Nat.lt_total k k') as [Hlt|[->|Hlt]]; [|done|].
  - rewrite (Hb' k g Hlt Hg) in Ht. done.
  - rewrite (Hb k' g' Hlt Hg') in Ht'. done.
Qed.

Lemma raises_not_ok torrent tiers e :
  raises torrent tiers e → (∀ k, ¬ first torrent tiers k) ∧ ¬ none torrent tiers.
Proof.
  intros (k & g & Hg & He & Hb). split.
  - intros k' [(g' & Hg' & Ht') Hb'].
    destruct (Nat.lt_total k k') as [Hlt|[->|Hlt]].
    + rewrite (Hb' k g Hlt Hg) in He. done.
    + simplify_eq. rewrite Ht' in He. done.
    + rewrite (Hb k' g' Hlt Hg') in Ht'. done.
  - intros Hn. rewrite (Hn g) in He; [done|]. by eapply list_elem_of_lookup_2.
Qed.

(** C2. When [filter_torrents] returns, each input torrent either has
    a first matching tier of index [k] (in the order of the pieces of the
    rule string between [>]), and then it is in the output, its title and
    description as they were and its [pri_order] set to [100 - k]; or no
    tier matches it, and then it is not in the output. The output keeps
    the order of the input. *)
Theorem filter_torrents_spec (torrent_list out : list TorrentInfo) (rule_str : string)
    (Hret : filtered torrent_list rule_str = Ok out) :
  ∃ ks : list (option nat),
    Forall2 (λ t ok, match ok with
                     | Some k => first t (PyStr.split ">" rule_str) k
                     | None => none t (PyStr.split ">" rule_str)
                     end) torrent_list ks ∧
    out = omap (λ '(t, ok),
                  (λ k : nat, {| title := title t; description := description t;
                                 pri_order := Some (100 - Z.of_nat k) |}) <$> ok)
               (zip torrent_list ks).
Proof.
  revert out Hret. induction torrent_list as [|t rest IH]; intros out Hret.
  - exists []. simpl in Hret. injection Hret as <-. split; [constructor | done].
  - simpl in Hret.
    pose proof (order_from_cases t (PyStr.split ">" rule_str) 100) as Hcase.
    unfold get_order in Hret.
    destruct (order_from t (PyStr.split ">" rule_str) 100) as [o|e]; [|done].
    simpl in Hret.
    destruct (filtered rest rule_str) as [ret|e]; [|done].
    simpl in Hret. injection Hret as <-.
    destruct (IH ret eq_refl) as (ks & Hks & ->).
    destruct o as [t'|].
    + destruct Hcase as (k & Hk & ->). exists (Some k :: ks).
      split; [by constructor | done].
    + exists (None :: ks). split; [by constructor | done].
Qed.

(** An unknown name is not an error: alone or as the only element of a
    group it evaluates to false. *)
Lemma unknown_name_false torrent n :
  rule_set !! n = None →
  group_value torrent (RName n) = Ok (Some false) ∧
  group_value torrent (RList [RName n]) = Ok (Some false).
Proof. intros H. simpl. unfold match_rule. by rewrite H. Qed.

Lemma filtered_ok_iff torrent_list rule_str :
  is_ok (filtered torrent_list rule_str) ↔
  Forall (λ t, is_ok (order t rule_str)) torrent_list.
Proof.
  induction torrent_list as [|t rest IH]; simpl.
  - split; [constructor | by exists []].
  - rewrite Forall_cons, <- IH. destruct (order t rule_str) as [o|e]; simpl.
    + destruct (filtered rest rule_str) as [ret|e']; simpl.
      * split; [intros _; split; by eexists | intros _; by eexists].
      * split; [intros [? [=]] | intros [_ [? [=]]]].
    + split; [intros [? [=]] | intros [[? [=]] _]].
Qed.

Lemma filtered_raise torrent_list rule_str e :
  filtered torrent_list rule_str = Raise e →
  ∃ t, t ∈ torrent_list ∧ order t rule_str = Raise e.
Proof.
  induction torrent_list as [|t rest IH]; simpl; [done|].
  destruct (order t rule_str) as [o|e'] eqn:Ho; simpl.
  - destruct (filtered rest rule_str) as [ret|e'']; simpl; [done|].
    intros [= ->]. destruct (IH eq_refl) as (t' & Hin & Ht').
    exists t'. split; [by right | done].
  - intros [= ->]. exists t. split; [by left | done].
Qed.

(** Nothing stands between the parser and the caller: when the parser
    rejects the first tier, the first torrent already makes
    [filter_torrents] raise. *)
Lemma parse_error_propagates torrent rest rule_str g gs e :
  PyStr.split ">" rule_str = g :: gs →
  parse (PyStr.strip g) = Raise e →
  filtered (torrent :: rest) rule_str = Raise e.
Proof.
  intros Hsplit Hparse. cbn [filter_torrents]. unfold get_order.
  rewrite Hsplit. cbn [get_order_from]. unfold tier_matches. by rewrite Hparse.
Qed.

(** C6, as the code has it. Neither [filter_torrents] nor what it calls
    catches anything. An unknown predicate name is no error and counts as
    a non-match. [filter_torrents] returns exactly when, for every
    torrent, the tiers evaluate without an exception up to the first one
    that matches, or all of them do and none matches; and when it raises,
    the exception is the one that the parser or the evaluation of a group
    raised on some tier of some torrent. *)
Theorem filter_torrents_returns (torrent_list : list TorrentInfo) (rule_str : string) :
  (∀ torrent n, rule_set !! n = None →
     group_value torrent (RName n) = Ok (Some false) ∧
     group_value torrent (RList [RName n]) = Ok (Some false)) ∧
  (is_ok (filtered torrent_list rule_str) ↔
   ∀ t, t ∈ torrent_list →
        (∃ k, first t (PyStr.split ">" rule_str) k) ∨ none t (PyStr.split ">" rule_str)) ∧
  (∀ e, filtered torrent_list rule_str = Raise e →
        ∃ t, t ∈ torrent_list ∧ raises t (PyStr.split ">" rule_str) e).
Proof.
  split_and!.
  - apply unknown_name_false.
  - rewrite filtered_ok_iff, Forall_forall. apply forall_proper; intros t.
    apply forall_proper; intros _. unfold get_order.
    pose proof (order_from_cases t (PyStr.split ">" rule_str) 100) as Hcase.
    destruct (order_from t (PyStr.split ">" rule_str) 100) as [[t'|]|e].
    + destruct Hcase as (k & Hk & _). split; [intros _; left; by exists k | by eexists].
    + split; [by right | by eexists].
    + apply raises_not_ok in Hcase as [Hno Hnn]. split; [intros [? [=]]|].
      intros [[k Hk]|Hn]; [by destruct (Hno k) | done].
  - intros e (t & Hin & Ht)%filtered_raise. exists t. split; [done|].
    unfold get_order in Ht.
    pose proof (order_from_cases t (PyStr.split ">" rule_str) 100) as Hcase.
    by rewrite Ht in Hcase.
Qed.

End FilterFacts.

(** ** The filter on concrete input *)

Example split_chain : PyStr.split ">" "4K > 1080P" = ["4K "; " 1080P"].
Proof. reflexivity. Qed.

Example split_empty : PyStr.split ">" "" = [""].
Proof. reflexivity. Qed.

Example strip_tier : PyStr.strip "  not CN	" = "not CN".
Proof. vm_compute. reflexivity. Qed.

(** The ideographic space U+3000 is white space too. *)
Example strip_wide_space : PyStr.strip "　4K　" = "4K".
Proof. vm_compute. reflexivity. Qed.

(** A character whose last bytes are not a white-space character stays. *)
Example strip_keeps_text : PyStr.strip " 中文 " = "中文".
Proof. vm_compute. reflexivity. Qed.

Example filter_two_tiers :
  Sample.filter_torrents [Scenario.remux_2160p; Scenario.sd_720p; Scenario.remux_1080p]
    "4K > REMUX" =
  Ok [set_pri_order Scenario.remux_2160p 100; set_pri_order Scenario.remux_1080p 99].
Proof. vm_compute. reflexivity. Qed.

(** A lone [not] is handed over as a word, hence a rule name that the
    table does not have: no error, no match. *)
Example filter_lone_not :
  Sample.filter_torrents [Scenario.remux_2160p] "not" = Ok [].
Proof. vm_compute. reflexivity. Qed.

Lemma filter_torrents_spec_witness :
  Sample.filter_torrents [Scenario.remux_2160p; Scenario.sd_720p; Scenario.remux_1080p]
    "4K > REMUX" =
  Ok [mkTorrent "Show.2023.2160p.REMUX" "" (Some 100);
      mkTorrent "Movie 1080p Remux" "x264" (Some 99)] ∧
  ∃ ks : list (option nat),
    Forall2 (λ t ok, match ok with
                     | Some k => first_tier Sample.re_search Sample.parse builtin_rule_set
                                   t (PyStr.split ">" "4K > REMUX") k
                     | None => no_tier Sample.re_search Sample.parse builtin_rule_set
                                 t (PyStr.split ">" "4K > REMUX")
                     end)
            [Scenario.remux_2160p; Scenario.sd_720p; Scenario.remux_1080p] ks ∧
    [mkTorrent "Show.2023.2160p.REMUX" "" (Some 100);
     mkTorrent "Movie 1080p Remux" "x264" (Some 99)] =
    omap (λ '(t, ok),
            (λ k : nat, {| title := title t; description := description t;
                           pri_order := Some (100 - Z.of_nat k) |}) <$> ok)
         (zip [Scenario.remux_2160p; Scenario.sd_720p; Scenario.remux_1080p] ks).
Proof.
  split; [vm_compute; reflexivity|].
  apply (filter_torrents_spec Sample.re_search Sample.parse builtin_rule_set).
  vm_compute. reflexivity.
Defined.

(** A flat group with [not] first, which the parser never makes, would
    be negated as a whole. *)
Lemma flat_not_group_negated :
  "REMUX" ≠ "not" ∧
  Sample.match_group Scenario.remux_2160p
    (RList [RName "not"; RName "REMUX"; RName "or"; RName "4K"]) = Ok (Some false).
Proof.
  split; [discriminate|].
  exact (not_negates_remainder Sample.re_search builtin_rule_set
           Scenario.remux_2160p "REMUX" "4K" OpOr ltac:(discriminate)).
Defined.

(** When [not A] is a group of its own, [not] negates [A] alone. *)
Example nested_not_negates_operand :
  Sample.match_group Scenario.remux_2160p
    (RList [RList [RName "not"; RName "REMUX"]; RName "or"; RName "4K"]) = Ok (Some true).
Proof. vm_compute. reflexivity. Qed.

(** A nested group in the last place of a group is handed to
    [__match_rule] as if it were a name, which raises [TypeError]. *)
Example nested_last_group_raises :
  Sample.match_group Scenario.remux_2160p
    (RList [RName "X"; RName "or"; RList [RName "REMUX"; RName "and"; RName "4K"]]) =
  Raise TypeError.
Proof. vm_compute. reflexivity. Qed.

(** What the parser makes of the words [not A op B]. *)
Lemma parse_tokens_not_binary (A B : string) (o : binop) :
  A ∉ ["not"; "("; ")"] → B ∉ ["not"; "("; ")"] →
  Sample.parse_tokens ["not"; A; op_word o; B] =
  Ok [RList [RList [RName "not"; RName A]; RName (op_word o); RName B]].
Proof.
  intros HA HB.
  assert (∀ w : string, w ∉ ["not"; "("; ")"] →
            String.eqb w "not" = false ∧ String.eqb w "(" = false ∧
            String.eqb w ")" = false) as Hword.
  { intros w Hw. rewrite !String.eqb_neq.
    split_and!; intros ->; apply Hw; [by left | right; by left | do 2 right; by left]. }
  destruct (Hword A HA) as (HA1 & HA2 & HA3).
  destruct (Hword B HB) as (HB1 & HB2 & HB3).
  unfold Sample.parse_tokens. cbn [Sample.nest String.eqb Ascii.eqb Bool.eqb].
  rewrite HA2, HA3, HB2, HB3.
  assert (String.eqb (op_word o) "(" = false ∧ String.eqb (op_word o) ")" = false ∧
          String.eqb (op_word o) "not" = false) as (Ho1 & Ho2 & Ho3) by (by destruct o).
  rewrite Ho1, Ho2. simpl. unfold Sample.as_group. simpl.
  by rewrite HA1, Ho3, HB1.
Qed.

(** C3. A tier written [not A op B], without parentheses, is evaluated as
    [(not A) op B]: the parser makes a group of [not] and the name after
    it, and [__match_group] negates that group alone. Where the two
    readings differ, the value is not that of [not (A op B)]. *)
Theorem not_binds_next_operand (re_search : string → string → bool)
    (rule_set : gmap string rule) (torrent : TorrentInfo)
    (rule_group A B : string) (o : binop)
    (Hwords : Sample.tokenize EmptyString (PyStr.strip rule_group) =
              ["not"; A; op_word o; B])
    (HA : A ∉ ["not"; "("; ")"]) (HB : B ∉ ["not"; "("; ")"]) :
  let a := match_rule re_search rule_set torrent A in
  let b := match_rule re_search rule_set torrent B in
  tier_matches re_search Sample.parse rule_set torrent rule_group =
    Ok (eval_op o (negb a) b) ∧
  (eval_op o (negb a) b ≠ negb (eval_op o a b) →
   tier_matches re_search Sample.parse rule_set torrent rule_group ≠
     Ok (negb (eval_op o a b))).
Proof.
  intros a b.
  assert (tier_matches re_search Sample.parse rule_set torrent rule_group =
          Ok (eval_op o (negb a) b)) as Heq.
  { unfold tier_matches, Sample.parse.
    rewrite Hwords, (parse_tokens_not_binary A B o HA HB). cbn [mbind res_bind first_of].
    by rewrite nested_not_value. }
  split; [exact Heq|]. rewrite Heq. intros Hne [=]. done.
Qed.

(** The torrent is both [REMUX] and [4K]: [(not REMUX) or 4K] is true,
    [not (REMUX or 4K)] would be false. *)
Lemma not_binds_next_operand_witness :
  Sample.tokenize EmptyString (PyStr.strip " not REMUX or 4K ") =
    ["not"; "REMUX"; "or"; "4K"] ∧
  ("REMUX" ∉ ["not"; "("; ")"]) ∧ ("4K" ∉ ["not"; "("; ")"]) ∧
  tier_matches Sample.re_search Sample.parse builtin_rule_set Scenario.remux_2160p
    " not REMUX or 4K " = Ok true ∧
  tier_matches Sample.re_search Sample.parse builtin_rule_set Scenario.remux_2160p
    " not REMUX or 4K " ≠ Ok false.
Proof.
  assert (∀ w : string, w ≠ "not" → w ≠ "(" → w ≠ ")" → w ∉ ["not"; "("; ")"]) as Hword.
  { intros w H1 H2 H3 Hin.
    apply elem_of_cons in Hin as [Hin|Hin]; [done|].
    apply elem_of_cons in Hin as [Hin|Hin]; [done|].
    apply elem_of_cons in Hin as [Hin|Hin]; [done|]. inversion Hin. }
  assert ("REMUX" ∉ ["not"; "("; ")"]) as HA by (apply Hword; discriminate).
  assert ("4K" ∉ ["not"; "("; ")"]) as HB by (apply Hword; discriminate).
  split; [vm_compute; reflexivity|]. split; [exact HA|]. split; [exact HB|].
  destruct (not_binds_next_operand Sample.re_search builtin_rule_set Scenario.remux_2160p
              " not REMUX or 4K " "REMUX" "4K" OpOr ltac:(vm_compute; reflexivity) HA HB)
    as [Hvalue Hother].
  split; [exact Hvalue|]. apply Hother. vm_compute. discriminate.
Defined.

Lemma chain_folds_right_witness :
  "REMUX" ≠ "not" ∧ "X" ≠ "not" ∧
  Sample.match_group Scenario.remux_2160p
    (RList [RName "REMUX"; RName "or"; RName "X"; RName "and"; RName "Y"]) = Ok (Some true) ∧
  Sample.match_group Scenario.remux_2160p
    (RList [RName "REMUX"; RName "or"; RName "X"; RName "and"; RName "Y"]) ≠ Ok (Some false).
Proof.
  split; [discriminate|]. split; [discriminate|].
  destruct (chain_folds_right Sample.re_search builtin_rule_set Scenario.remux_2160p
              "REMUX" "X" "Y" OpOr OpAnd ltac:(discriminate) ltac:(discriminate))
    as [Hright Hleft].
  split; [exact Hright|]. apply Hleft. vm_compute. discriminate.
Defined.

(** C6 as stated fails: the tier [X or] has no operand after [or]; [X] is
    unknown, so the right side is evaluated, and indexing the empty rest
    raises [IndexError], which reaches the caller. *)
Lemma filter_torrents_raises_counterexample :
  Sample.filter_torrents [Scenario.remux_2160p] "X or" = Raise IndexError ∧
  ¬ is_ok (Sample.filter_torrents [Scenario.remux_2160p] "X or").
Proof.
  assert (Sample.filter_torrents [Scenario.remux_2160p] "X or" = Raise IndexError) as H
    by (vm_compute; reflexivity).
  split; [exact H|]. rewrite H. intros [? [=]].
Qed.

(** * Properties of the scheduler *)

(** ** Dictionaries *)

Section ODictFacts.
Context {V : Type}.
Implicit Types (d : list (string * V)) (k : string) (v : V).

Lemma get_set_eq k v d : ODict.get k (ODict.set k v d) = Some v.
Proof.
  induction d as [|[k' v'] d IH]; simpl.
  - by rewrite decide_True.
  - destruct (decide (k' = k)) as [->|Hne]; simpl.
    + by rewrite decide_True.
    + by rewrite decide_False.
Qed.

Lemma get_set_ne k k' v d : k' ≠ k → ODict.get k (ODict.set k' v d) = ODict.get k d.
Proof.
  intros Hne. induction d as [|[k1 v1] d IH]; simpl.
  - by rewrite decide_False.
  - destruct (decide (k1 = k')) as [->|Hne1]; simpl.
    + by rewrite !decide_False.
    + destruct (decide (k1 = k)); [done | exact IH].
Qed.

Lemma get_pop_eq k d : ODict.get k (ODict.pop k d) = None.
Proof.
  induction d as [|[k' v'] d IH]; simpl; [done|].
  destruct (decide (k' = k)) as [->|Hne]; simpl; [exact IH|].
  by rewrite decide_False.
Qed.

Lemma get_pop_ne k k' d : k' ≠ k → ODict.get k (ODict.pop k' d) = ODict.get k d.
Proof.
  intros Hne. induction d as [|[k1 v1] d IH]; simpl; [done|].
  destruct (decide (k1 = k')) as [->|Hne1]; simpl.
  - by rewrite decide_False.
  - destruct (decide (k1 = k)); [done | exact IH].
Qed.

Lemma get_Some_elem k v d : ODict.get k d = Some v → (k, v) ∈ d.
Proof.
  induction d as [|[k' v'] d IH]; simpl; [done|].
  destruct (decide (k' = k)) as [->|Hne].
  - intros [= ->]. by left.
  - intros H. right. by apply IH.
Qed.

Lemma get_None_keys k d : ODict.get k d = None ↔ k ∉ ODict.keys d.
Proof.
  unfold ODict.keys. induction d as [|[k' v'] d IH]; simpl.
  - split; [intros _ H; inversion H | done].
  - rewrite not_elem_of_cons, <- IH.
    destruct (decide (k' = k)) as [->|Hne]; [split; [done | by intros [? _]]|].
    split; [by intros ? | by intros [_ ?]].
Qed.

Lemma wf_elem_get k v d : ODict.wf d → (k, v) ∈ d → ODict.get k d = Some v.
Proof.
  unfold ODict.wf, ODict.keys. induction d as [|[k' v'] d IH]; simpl.
  - intros _ H. inversion H.
  - intros [Hk Hd]%NoDup_cons [[= -> ->]|Hin]%elem_of_cons.
    + by rewrite decide_True.
    + rewrite decide_False; [by apply IH|].
      intros ->. apply Hk. apply list_elem_of_fmap. by exists (k, v).
Qed.

End ODictFacts.

(** ** [start]: the arguments of the job body *)

(** C10. When [start] calls the job body, the callable is the
    descriptor's, the positional arguments are those of the caller as they
    are, and the keyword arguments are the descriptor's stored ones (none
    if it stores none) exactly when the caller gave no keyword argument;
    otherwise they are the caller's alone. *)
Theorem start_passes_arguments (body : call → sched → sched * option exn)
    (st : sched) (job_id : string) (args : args_t) (kw : kwargs_t) (j : job)
    (Hjob : ODict.get job_id (jobs st) = Some j) (Hidle : running j = false) :
  ∃ c : call,
    start body st job_id args kw =
      (let '(st2, outcome) :=
         body c (with_jobs st (ODict.set job_id (set_running true j) (jobs st))) in
       start_exit st2 job_id outcome) ∧
    call_func c = func j ∧
    call_args c = args ∧
    (kw = [] → call_kwargs c = match kwargs j with Some d => d | None => [] end) ∧
    (kw ≠ [] → call_kwargs c = kw).
Proof.
  exists (mkCall (func j) args (effective_kwargs j kw)).
  unfold start, start_enter. rewrite Hjob, Hidle. simpl.
  split_and!; [done..| |].
  - by intros ->.
  - by destruct kw.
Qed.

Lemma start_passes_arguments_witness :
  ODict.get "subscribe_search" (jobs Scenario.spider) =
    Some (Scenario.builtin "SubscribeChain.search" (Some [("state", "R")]) false) ∧
  ∃ c : call,
    start Scenario.quiet_body Scenario.spider "subscribe_search" [] [] =
      (let '(st2, outcome) :=
         Scenario.quiet_body c
           (with_jobs Scenario.spider
              (ODict.set "subscribe_search"
                 (set_running true
                    (Scenario.builtin "SubscribeChain.search" (Some [("state", "R")]) false))
                 (jobs Scenario.spider))) in
       start_exit st2 "subscribe_search" outcome) ∧
    call_func c = "SubscribeChain.search" ∧
    call_args c = [] ∧
    (([] : kwargs_t) = [] → call_kwargs c = [("state", "R")]) ∧
    (([] : kwargs_t) ≠ [] → call_kwargs c = []).
Proof.
  split; [reflexivity|].
  exact (start_passes_arguments Scenario.quiet_body Scenario.spider "subscribe_search" [] []
           (Scenario.builtin "SubscribeChain.search" (Some [("state", "R")]) false)
           eq_refl eq_refl).
Defined.

(** The caller's keyword arguments replace the stored ones. *)
Example start_keeps_caller_kwargs :
  snd (start_enter Scenario.spider "subscribe_search" [] [("state", "N")]) =
  Some (mkCall "SubscribeChain.search" [] [("state", "N")]).
Proof. reflexivity. Qed.

(** ** [start]: the descriptor after the job body *)

Lemma get_job_id id l t : Aps.get_job id l = Some t → tid t = id ∧ t ∈ l.
Proof.
  unfold Aps.get_job. intros H. apply find_some in H as [Hin Hid].
  apply bool_decide_eq_true in Hid. split; [done | by apply list_elem_of_In].
Qed.

Lemma get_job_none id l : Aps.get_job id l = None ↔ ∀ t, t ∈ l → tid t ≠ id.
Proof.
  unfold Aps.get_job. split.
  - intros H t Hin Hid. apply list_elem_of_In in Hin.
    pose proof (find_none _ _ H t Hin) as Hf. simpl in Hf.
    by rewrite bool_decide_eq_false in Hf.
  - intros H. destruct (find _ l) as [t|] eqn:Hf; [|done].
    apply find_some in Hf as [Hin Hid]. apply bool_decide_eq_true in Hid.
    apply list_elem_of_In in Hin. by destruct (H t Hin).
Qed.

(** What the last block of [start] decides: the descriptor stays, with
    [running] reset, exactly when the trigger subsystem has a job whose id
    is the job id itself. *)
Lemma start_exit_descriptor st job_id outcome :
  ODict.get job_id (jobs (start_exit st job_id outcome)) =
  match Aps.get_job job_id (triggers st) with
  | None => None
  | Some _ => set_running false <$> ODict.get job_id (jobs st)
  end.
Proof.
  unfold start_exit. destruct outcome as [e|]; simpl;
    (destruct (Aps.get_job job_id (triggers st)); simpl;
     [destruct (ODict.get job_id (jobs st)) eqn:Hg; simpl;
        [apply get_set_eq | exact Hg]
     | apply get_pop_eq]).
Qed.

Lemma start_exit_other st job_id outcome k :
  k ≠ job_id →
  ODict.get k (jobs (start_exit st job_id outcome)) = ODict.get k (jobs st).
Proof.
  intros Hne. unfold start_exit.
  assert (∀ st1, jobs st1 = jobs st →
    ODict.get k
      (match Aps.get_job job_id (triggers st1) with
       | None => ODict.pop job_id
                   (match ODict.get job_id (jobs st1) with
                    | Some j => ODict.set job_id (set_running false j) (jobs st1)
                    | None => jobs st1
                    end)
       | Some _ => match ODict.get job_id (jobs st1) with
                   | Some j => ODict.set job_id (set_running false j) (jobs st1)
                   | None => jobs st1
                   end
       end) = ODict.get k (jobs st)) as Hgen.
  { intros st1 ->. destruct (Aps.get_job job_id (triggers st1));
      [|rewrite get_pop_ne by done];
      (destruct (ODict.get job_id (jobs st)); [by apply get_set_ne | done]). }
  destruct outcome; simpl; by apply Hgen.
Qed.

(** C7 fails on the code: in spider mode the triggers of
    [subscribe_refresh] have the ids [subscribe_refresh|hour:minute];
    [get_job("subscribe_refresh")] finds none of them, so the first run
    deletes the descriptor although every trigger is still there, and the
    next trigger finds no descriptor and does nothing. *)
Theorem purge_ignores_suffixed_triggers :
  ODict.get "subscribe_refresh"
    (jobs (start Scenario.quiet_body Scenario.spider "subscribe_refresh" [] [])) = None ∧
  triggers (start Scenario.quiet_body Scenario.spider "subscribe_refresh" [] []) =
    triggers Scenario.spider ∧
  List.filter (λ t, bool_decide (logical_id (tid t) = "subscribe_refresh"))
    (triggers (start Scenario.quiet_body Scenario.spider "subscribe_refresh" [] [])) =
    [mkTrigger "subscribe_refresh|3:15" "订阅刷新" 100;
     mkTrigger "subscribe_refresh|9:40" "订阅刷新" 200] ∧
  snd (start_enter (start Scenario.quiet_body Scenario.spider "subscribe_refresh" [] [])
         "subscribe_refresh" [] []) = None.
Proof. vm_compute. done. Qed.

(** With a trigger of the job's own id the descriptor stays. *)
Example keeps_descriptor_with_own_trigger :
  ODict.get "subscribe_search"
    (jobs (start Scenario.quiet_body Scenario.spider "subscribe_search" [] [])) =
  Some (Scenario.builtin "SubscribeChain.search" (Some [("state", "R")]) false).
Proof. vm_compute. reflexivity. Qed.

(** ** [remove_plugin_job] *)

Lemma remove_one_jobs p n st k j :
  jobs (remove_one p n st (k, j)) =
  if bool_decide (pid j = Some p) then ODict.pop k (jobs st) else jobs st.
Proof.
  unfold remove_one. case_bool_decide; [|done].
  destruct (Aps.remove_job k _) as [l|[]]; reflexivity.
Qed.

Lemma remove_loop_shrinks p n items st k :
  ODict.get k (jobs (foldl (remove_one p n) st items)) = None ∨
  ODict.get k (jobs (foldl (remove_one p n) st items)) = ODict.get k (jobs st).
Proof.
  revert st. induction items as [|[k1 j1] items IH]; intros st; cbn [foldl]; [by right|].
  destruct (IH (remove_one p n st (k1, j1))) as [H|H]; [by left|].
  rewrite H, remove_one_jobs. case_bool_decide; [|by right].
  destruct (decide (k1 = k)) as [->|Hne].
  - left. apply get_pop_eq.
  - right. by apply get_pop_ne.
Qed.

Lemma remove_loop_owned p n items st k j :
  (k, j) ∈ items → pid j = Some p →
  ODict.get k (jobs (foldl (remove_one p n) st items)) = None.
Proof.
  revert st. induction items as [|[k1 j1] items IH]; intros st Hin Hp; [inversion Hin|].
  cbn [foldl]. apply elem_of_cons in Hin as [[= <- <-]|Hin]; [|by apply IH].
  destruct (remove_loop_shrinks p n items (remove_one p n st (k, j)) k) as [H|H]; [done|].
  rewrite H, remove_one_jobs, bool_decide_eq_true_2 by done. apply get_pop_eq.
Qed.


(** Nothing is added, and what stays is unchanged. *)
Lemma remove_plugin_job_shrinks st p n k :
  ODict.get k (jobs (remove_plugin_job st p n)) = None ∨
  ODict.get k (jobs (remove_plugin_job st p n)) = ODict.get k (jobs st).
Proof. apply remove_loop_shrinks. Qed.

(** C8 fails on the code: the descriptor [jobA] of plug-in [p] has the
    triggers [jobA|1] and [jobA|2]; [remove_job("jobA")] finds neither, the
    lookup error is swallowed, and both triggers stay in the trigger
    subsystem. When the plug-in is registered again, both ids are taken. *)
Theorem remove_leaves_suffixed_triggers :
  jobs Scenario.with_plugin =
    [("jobA", Scenario.plugin_job "Plugin.sync" "Sync" "p" "P" false)] ∧
  tid <$> triggers Scenario.with_plugin = ["jobA|1"; "jobA|2"] ∧
  jobs (remove_plugin_job Scenario.with_plugin "p" (Some "P")) = [] ∧
  tid <$> triggers (remove_plugin_job Scenario.with_plugin "p" (Some "P")) =
    ["jobA|1"; "jobA|2"] ∧
  log (update_plugin_job {| jobs := jobs Scenario.with_plugin;
                            triggers := triggers Scenario.with_plugin;
                            log := [] |}
         "p" (Ok Scenario.services_p) (Some "P")) =
    [InfoRemoved (Some "P") (Some "Sync");
     ErrorRegister (Some "P") ConflictingIdError "jobA|1";
     ErrorRegister (Some "P") ConflictingIdError "jobA|2"].
Proof. vm_compute. done. Qed.

(** ** [list] *)

Lemma filter_keys_elem {V} (f : string * V → bool) (d : list (string * V)) k :
  k ∈ (List.filter f d).*1 → k ∈ d.*1.
Proof.
  induction d as [|[k1 v1] d IH]; simpl; [done|].
  destruct (f (k1, v1)); simpl.
  - intros [->|Hin]%elem_of_cons; [by left | right; by apply IH].
  - intros Hin. right. by apply IH.
Qed.

Lemma filter_keys_NoDup {V} (f : string * V → bool) (d : list (string * V)) :
  NoDup d.*1 → NoDup (List.filter f d).*1.
Proof.
  induction d as [|[k1 v1] d IH]; simpl; [done|].
  intros [Hk Hd]%NoDup_cons. destruct (f (k1, v1)); simpl; [|by apply IH].
  apply NoDup_cons. split; [|by apply IH].
  intros Hin. apply Hk. by eapply filter_keys_elem.
Qed.

Section ListFacts.

Variable time_difference : Z → string.

Lemma list_running_skip k j items added :
  shown j = false →
  list_running ((k, j) :: items) added = list_running items added.
Proof.
  unfold shown. cbn [list_running].
  destruct (name j) as [n|]; [|done]. destruct (plugin_name j) as [| |p]; [done..|].
  by intros ->.
Qed.

Lemma list_running_show k j n p items added :
  name j = Some n → plugin_name j = Val p → shown j = true →
  list_running ((k, j) :: items) added =
  (mkInfo k n (Some p) StRunning None
     :: (list_running items
           (if bool_decide (n ∈ added) then added else (added ++ [n])%list)).1,
   (list_running items
      (if bool_decide (n ∈ added) then added else (added ++ [n])%list)).2).
Proof.
  unfold shown. cbn [list_running]. intros -> ->. intros ->.
  by destruct (list_running items _).
Qed.

(** The first loop: one entry per shown descriptor, in the order of the
    table; every name it emits is in [added] afterwards. *)
Lemma list_running_spec items added :
  info_id <$> (list_running items added).1 =
    (List.filter (λ kj, shown kj.2) items).*1 ∧
  (∀ n, n ∈ added → n ∈ (list_running items added).2) ∧
  (∀ e, e ∈ (list_running items added).1 →
        info_name e ∈ (list_running items added).2 ∧
        info_status e = StRunning ∧
        ∃ j, (info_id e, j) ∈ items ∧ shown j = true ∧ name j = Some (info_name e)).
Proof.
  revert added. induction items as [|[k j] items IH]; intros added.
  - simpl. split_and!; [done..|]. intros e He. inversion He.
  - assert (shown j = false ∨ ∃ n p, shown j = true ∧ name j = Some n ∧ plugin_name j = Val p)
      as [Hs|(n & p & Hs & Hn & Hp)].
    { unfold shown. destruct (name j) as [n|]; [|by left].
      destruct (plugin_name j) as [| |p]; [by left..|].
      destruct (running j && nonempty n && nonempty p); [right; by exists n, p | by left]. }
    + rewrite (list_running_skip k j items added Hs). cbn [List.filter snd].
      rewrite Hs. destruct (IH added) as (Hids & Hadd & Hent).
      split_and!; [done..|].
      intros e He. destruct (Hent e He) as (H1 & H2 & j' & Hj' & Hs' & Hn').
      split_and!; [done..|]. exists j'. split_and!; [by right | done..].
    + rewrite (list_running_show k j n p items added Hn Hp Hs). cbn [List.filter snd].
      rewrite Hs.
      set (added' := if bool_decide (n ∈ added) then added else (added ++ [n])%list).
      assert (∀ m, m ∈ added → m ∈ added') as Hsub.
      { intros m Hm. unfold added'. case_bool_decide; [done|].
        apply elem_of_app. by left. }
      assert (n ∈ added') as Hnin.
      { unfold added'. case_bool_decide; [done|]. apply elem_of_app. right. by left. }
      destruct (IH added') as (Hids & Hadd & Hent). cbn [fst snd]. split_and!.
      * rewrite fmap_cons. cbn [info_id]. rewrite Hids. reflexivity.
      * intros m Hm. by apply Hadd, Hsub.
      * intros e [->|He]%elem_of_cons.
        -- cbn [info_name info_status info_id]. split_and!; [by apply Hadd | done|].
           exists j. split_and!; [by left | done..].
        -- destruct (Hent e He) as (H1 & H2 & j' & Hj' & Hs' & Hn').
           split_and!; [done..|]. exists j'. split_and!; [by right | done..].
Qed.

(** The second loop: no name twice, and no name that is in [added]. *)
Lemma list_waiting_names d sorted added :
  NoDup (info_name <$> list_waiting time_difference d sorted added) ∧
  ∀ e, e ∈ list_waiting time_difference d sorted added → info_name e ∉ added.
Proof.
  revert added. induction sorted as [|t sorted IH]; intros added; simpl.
  - split; [constructor | intros e He; inversion He].
  - case_bool_decide as Hin; [apply IH|].
    destruct (IH (added ++ [tname t])%list) as [Hnd Hout].
    assert (∀ e, e ∈ (list_waiting time_difference d sorted (added ++ [tname t])%list) →
                 (info_name e ∉ added) ∧ (info_name e ≠ tname t)) as Hout'.
    { intros e He. specialize (Hout e He). apply not_elem_of_app in Hout as [H1 H2].
      split; [done|]. intros Heq. apply H2. rewrite Heq. by left. }
    destruct (ODict.get (logical_id (tid t)) d) as [service|].
    + split.
      * simpl. apply NoDup_cons. split; [|done].
        intros (e & Heq & He)%list_elem_of_fmap.
        destruct (Hout' e He) as [_ Hne]. by rewrite Heq in Hne.
      * intros e [->|He]%elem_of_cons; [done|]. by apply Hout'.
    + split; [done|]. intros e He. by apply Hout'.
Qed.

(** Sorting keeps the jobs of the trigger subsystem, all of them and no
    others. *)
Lemma insert_by_time_elem t x l : t ∈ Aps.insert_by_time x l ↔ t = x ∨ t ∈ l.
Proof.
  induction l as [|u l IH]; simpl.
  - rewrite list_elem_of_singleton. split; [by left | intros [?|H]; [done | inversion H]].
  - destruct (next_run_time x <=? next_run_time u).
    + by rewrite elem_of_cons.
    + rewrite !elem_of_cons, IH. tauto.
Qed.

Lemma sort_by_time_elem t l : t ∈ Aps.sort_by_time l ↔ t ∈ l.
Proof.
  unfold Aps.sort_by_time. induction l as [|x l IH]; simpl; [done|].
  by rewrite insert_by_time_elem, IH, elem_of_cons.
Qed.

(** Where an entry of the second loop comes from. *)
Lemma list_waiting_source d sorted added e :
  e ∈ list_waiting time_difference d sorted added →
  ∃ t j, t ∈ sorted ∧ info_name e = tname t ∧ info_id e = logical_id (tid t) ∧
         ODict.get (info_id e) d = Some j ∧
         info_status e = (if running j then StRunning else StWaiting).
Proof.
  revert added. induction sorted as [|t sorted IH]; intros added; cbn [list_waiting].
  - intros H. inversion H.
  - assert (∀ added', e ∈ list_waiting time_difference d sorted added' →
              ∃ t0 j, t0 ∈ t :: sorted ∧ info_name e = tname t0 ∧
                      info_id e = logical_id (tid t0) ∧
                      ODict.get (info_id e) d = Some j ∧
                      info_status e = (if running j then StRunning else StWaiting))
      as Hrest.
    { intros added' (t0 & j & Hin & H)%IH. exists t0, j. split; [by right | done]. }
    case_bool_decide; [apply Hrest|].
    destruct (ODict.get (logical_id (tid t)) d) as [service|] eqn:Hg; [|apply Hrest].
    intros [->|Hin]%elem_of_cons; [|by eapply Hrest].
    exists t, service. split; [by left | done].
Qed.

(** C9, as the code has it. What [list] returns is what its first loop
    emits followed by what its second loop emits. The first loop emits one
    entry for every descriptor that is running and has a display name and
    a provider: each of them once in that loop, in the order of the table,
    and without regard to names that repeat. The second loop emits entries
    for jobs of the trigger subsystem whose logical id has a descriptor;
    their names are pairwise distinct and differ from every name of the
    first loop. *)
Theorem list_entries (st : sched) (Hwf : ODict.wf (jobs st)) :
  ∃ (first second : list ScheduleInfo) (added : list string),
    list_running (jobs st) [] = (first, added) ∧
    second = list_waiting time_difference (jobs st)
               (Aps.sort_by_time (triggers st)) added ∧
    sched_list time_difference st = (first ++ second)%list ∧
    info_id <$> first = (List.filter (λ kj, shown kj.2) (jobs st)).*1 ∧
    NoDup (info_id <$> first) ∧
    (∀ e, e ∈ first →
          info_status e = StRunning ∧
          ∃ j, ODict.get (info_id e) (jobs st) = Some j ∧ shown j = true ∧
               name j = Some (info_name e)) ∧
    NoDup (info_name <$> second) ∧
    (∀ e, e ∈ second → info_name e ∉ info_name <$> first) ∧
    (∀ e, e ∈ second →
          ∃ t j, t ∈ triggers st ∧ info_name e = tname t ∧
                 info_id e = logical_id (tid t) ∧
                 ODict.get (info_id e) (jobs st) = Some j).
Proof.
  unfold sched_list.
  destruct (list_running_spec (jobs st) []) as (Hids & _ & Hent).
  destruct (list_running (jobs st) []) as [first added]. simpl in *.
  destruct (list_waiting_names (jobs st) (Aps.sort_by_time (triggers st)) added)
    as [Hnd Hout].
  exists first,
    (list_waiting time_difference (jobs st) (Aps.sort_by_time (triggers st)) added),
    added.
  split_and!; [done | done | done | done | | | done | |].
  - rewrite Hids. by apply filter_keys_NoDup.
  - intros e He. destruct (Hent e He) as (_ & Hst & j & Hj & Hs & Hn).
    split; [done|]. exists j. split_and!; [by apply wf_elem_get | done..].
  - intros e He (e' & Heq & He')%list_elem_of_fmap.
    destruct (Hent e' He') as (Hadded & _). apply (Hout e He). by rewrite Heq.
  - intros e (t & j & Hin & Hn & Hid & Hj & _)%list_waiting_source.
    exists t, j. split_and!; [by apply sort_by_time_elem | done..].
Qed.

End ListFacts.

Lemma list_entries_witness :
  ODict.wf (jobs Scenario.same_name) ∧
  ∃ (first second : list ScheduleInfo) (added : list string),
    list_running (jobs Scenario.same_name) [] = (first, added) ∧
    second = list_waiting Scenario.no_text (jobs Scenario.same_name)
               (Aps.sort_by_time (triggers Scenario.same_name)) added ∧
    sched_list Scenario.no_text Scenario.same_name = (first ++ second)%list ∧
    info_id <$> first = (List.filter (λ kj, shown kj.2) (jobs Scenario.same_name)).*1 ∧
    NoDup (info_id <$> first) ∧
    (∀ e, e ∈ first →
          info_status e = StRunning ∧
          ∃ j, ODict.get (info_id e) (jobs Scenario.same_name) = Some j ∧ shown j = true ∧
               name j = Some (info_name e)) ∧
    NoDup (info_name <$> second) ∧
    (∀ e, e ∈ second → info_name e ∉ info_name <$> first) ∧
    (∀ e, e ∈ second →
          ∃ t j, t ∈ triggers Scenario.same_name ∧ info_name e = tname t ∧
                 info_id e = logical_id (tid t) ∧
                 ODict.get (info_id e) (jobs Scenario.same_name) = Some j).
Proof.
  assert (ODict.wf (jobs Scenario.same_name)) as Hwf.
  { unfold ODict.wf, ODict.keys. simpl. apply NoDup_cons. split.
    - intros Hin. apply list_elem_of_singleton in Hin. discriminate.
    - apply NoDup_singleton. }
  split; [exact Hwf|].
  exact (list_entries Scenario.no_text Scenario.same_name Hwf).
Defined.

(** Across the two loops an id can repeat: job [b] is running and is
    listed by the first loop, and again by the second under the name of
    its trigger. *)
Example list_repeats_id :
  info_id <$> sched_list Scenario.no_text Scenario.same_name = ["a"; "b"; "b"].
Proof. vm_compute. reflexivity. Qed.

(** C9 as stated fails: two running jobs of a plug-in have the display
    name [Sync]; the first loop emits both, so the name is listed twice. *)
Lemma list_repeats_name_counterexample :
  info_name <$> sched_list Scenario.no_text Scenario.same_name = ["Sync"; "Sync"; "Backup"] ∧
  ¬ NoDup (info_name <$> sched_list Scenario.no_text Scenario.same_name).
Proof.
  assert (info_name <$> sched_list Scenario.no_text Scenario.same_name =
          ["Sync"; "Sync"; "Backup"]) as H by (vm_compute; reflexivity).
  split; [exact H|]. rewrite H. intros [Hin _]%NoDup_cons. apply Hin. by left.
Qed.

(** ** Exclusive execution *)

Lemma executions_cons id st x l :
  executions id (mkSystem st (x :: l)) =
  if bool_decide (x = id) then S (executions id (mkSystem st l))
  else executions id (mkSystem st l).
Proof. unfold executions. simpl. by case_bool_decide. Qed.

Lemma executions_pos id st l : id ∈ l ↔ (0 < executions id (mkSystem st l))%nat.
Proof.
  induction l as [|x l IH].
  - split; [intros H; inversion H | unfold executions; simpl; lia].
  - rewrite executions_cons, elem_of_cons. case_bool_decide as Hx.
    + split; [lia | intros _; by left].
    + rewrite <- IH. split; [intros [->|?]; done | by right].
Qed.

Lemma executions_remove_first_eq id st l :
  executions id (mkSystem st (remove_first id l)) = pred (executions id (mkSystem st l)).
Proof.
  induction l as [|x l IH]; [done|]. simpl.
  destruct (decide (x = id)) as [->|Hne].
  - rewrite executions_cons, bool_decide_eq_true_2 by done. done.
  - rewrite !executions_cons, !bool_decide_eq_false_2 by done. exact IH.
Qed.

Lemma executions_remove_first_ne id x st l :
  x ≠ id →
  executions id (mkSystem st (remove_first x l)) = executions id (mkSystem st l).
Proof.
  intros Hne. induction l as [|y l IH]; [done|]. simpl.
  destruct (decide (y = x)) as [->|Hyx].
  - by rewrite executions_cons, bool_decide_eq_false_2.
  - rewrite !executions_cons. by rewrite IH.
Qed.

Lemma executions_sched id st st' l :
  executions id (mkSystem st l) = executions id (mkSystem st' l).
Proof. reflexivity. Qed.

(** A call of [start] for a descriptor that is marked running logs the
    warning and does nothing else. *)
Lemma start_enter_running st job_id args kw j :
  ODict.get job_id (jobs st) = Some j → running j = true →
  start_enter st job_id args kw = (add_log st (WarnRunning job_id), None).
Proof. intros Hj Hr. unfold start_enter. by rewrite Hj, Hr. Qed.

Lemma register_one_get p n st s id j :
  ODict.get id (jobs (register_one p n st s)) = Some j →
  ODict.get id (jobs st) = Some j ∨ id = logical_id (sid s).
Proof.
  unfold register_one.
  assert (∀ st1, jobs (match Aps.add_job (mkTrigger (sid s) (sname s) (snext s)) (triggers st1) with
                       | Ok l => add_log (with_triggers st1 l) (InfoRegistered n (sname s))
                       | Raise e => add_log st1 (ErrorRegister n e (sid s))
                       end) = jobs st1) as ->.
  { intros st1. by destruct (Aps.add_job _ _). }
  destruct (ODict.get (logical_id (sid s)) (jobs st)) eqn:Hg; [by left|].
  simpl. destruct (decide (logical_id (sid s) = id)) as [<-|Hne]; [by right|].
  rewrite get_set_ne by done. by left.
Qed.

Lemma register_loop_get p n l st id j :
  ODict.get id (jobs (foldl (register_one p n) st l)) = Some j →
  ODict.get id (jobs st) = Some j ∨ ∃ s, s ∈ l ∧ id = logical_id (sid s).
Proof.
  revert st. induction l as [|s l IH]; intros st; cbn [foldl]; [by left|].
  intros [H|(s' & Hin & ->)]%IH.
  - apply register_one_get in H as [H| ->]; [by left|].
    right. exists s. split; [by left | done].
  - right. exists s'. split; [by right | done].
Qed.

Lemma step_exclusive a sys sys' :
  registers_idle a sys → exclusive sys → step a sys = Some sys' → exclusive sys'.
Proof.
  intros Hidle Hex Hstep. destruct sys as [st ex]. destruct a as [job_id args kw | job_id outcome | pid0 pn | pid0 services pn | tg];
    cbn [step sched_of executing] in Hstep.
  - (* the first block of [start] *)
    unfold start_enter in Hstep.
    destruct (ODict.get job_id (jobs st)) as [j|] eqn:Hj; [|by simplify_eq].
    destruct (running j) eqn:Hr; simplify_eq; [exact Hex|].
    assert (job_id ∉ ex) as Hnot.
    { intros Hin. destruct (Hex job_id) as [_ H]. cbn [sched_of executing] in H.
      rewrite (H Hin j Hj) in Hr. done. }
    intros id. destruct (Hex id) as [Hle Hrun]. cbn [sched_of executing] in *.
    rewrite executions_cons. case_bool_decide as Hid.
    + subst id. split.
      * assert (executions job_id (mkSystem st ex) = 0)%nat as H0.
        { destruct (executions job_id (mkSystem st ex)) eqn:He; [done|].
          exfalso. apply Hnot. apply (executions_pos job_id st). lia. }
        rewrite (executions_sched _ _ st), H0. lia.
      * intros _ j'. cbn [jobs with_jobs]. rewrite get_set_eq. by intros [= <-].
    + split; [exact Hle|]. intros [?|Hin]%elem_of_cons; [done|].
      intros j'. cbn [jobs with_jobs]. rewrite get_set_ne by done. by apply Hrun.
  - (* the last block of [start] *)
    case_bool_decide as Hin; simplify_eq.
    intros id. destruct (Hex id) as [Hle Hrun]. cbn [sched_of executing] in *.
    destruct (decide (job_id = id)) as [->|Hne].
    + rewrite executions_remove_first_eq, (executions_sched _ _ st).
      split; [lia|]. intros Hin'.
      apply (executions_pos id (start_exit st id outcome)) in Hin'.
      rewrite executions_remove_first_eq, (executions_sched _ _ st) in Hin'. lia.
    + rewrite executions_remove_first_ne, (executions_sched _ _ st) by done.
      split; [exact Hle|]. intros Hin' j'.
      rewrite start_exit_other by done. apply Hrun.
      apply (executions_pos id st).
      apply (executions_pos id st) in Hin'.
      by rewrite executions_remove_first_ne in Hin'.
  - (* [remove_plugin_job] *)
    simplify_eq. intros id. destruct (Hex id) as [Hle Hrun]. cbn [sched_of executing] in *.
    split; [exact Hle|]. intros Hin j Hj.
    destruct (remove_plugin_job_shrinks st pid0 pn id) as [H|H]; [congruence|].
    rewrite H in Hj. by apply Hrun.
  - (* the second block of [update_plugin_job] *)
    simplify_eq. intros id. destruct (Hex id) as [Hle Hrun]. cbn [sched_of executing] in *.
    split; [exact Hle|]. intros Hin j Hj.
    destruct services as [l|e]; cbn [register_plugin_services] in Hj; [|by apply Hrun].
    apply register_loop_get in Hj as [Hj|(s & Hs & ->)]; [by apply Hrun|].
    by destruct (Hidle s Hs).
  - (* a trigger is gone *)
    simplify_eq. exact Hex.
Qed.

Lemma run_exclusive trace sys sys' :
  undisturbed trace sys → exclusive sys → run trace sys = Some sys' → exclusive sys'.
Proof.
  revert sys. induction trace as [|a trace IH]; intros sys Hq Hex Hrun; simpl in *.
  - by simplify_eq.
  - destruct Hq as [Hidle Hq]. destruct (step a sys) as [sys1|] eqn:Hstep; [|done].
    eapply IH; [exact Hq | by eapply step_exclusive | exact Hrun].
Qed.

(** C1, as the code has it. Take any run that starts with no job body
    executing and in which [update_plugin_job] never registers a service of
    a job whose body is executing. Then at every moment at most one body of
    a job id is executing; while one is, the descriptor, if it is in the
    table, is marked running; and a call of [start] for a descriptor that
    is marked running logs the warning and returns: no body is called
    (the result does not depend on the body), nothing is queued, and table
    and triggers are as before. *)
Theorem duplicate_start_dropped (trace : list action) (sys0 sys : system)
    (job_id : string) (args : args_t) (kw : kwargs_t)
    (Hinit : executing sys0 = [])
    (Hquiet : undisturbed trace sys0)
    (Hrun : run trace sys0 = Some sys) :
  (executions job_id sys ≤ 1)%nat ∧
  (job_id ∈ executing sys →
   ∀ j, ODict.get job_id (jobs (sched_of sys)) = Some j → running j = true) ∧
  (∀ j, ODict.get job_id (jobs (sched_of sys)) = Some j → running j = true →
        step (AStart job_id args kw) sys =
          Some (mkSystem (add_log (sched_of sys) (WarnRunning job_id)) (executing sys)) ∧
        ∀ body, start body (sched_of sys) job_id args kw =
                add_log (sched_of sys) (WarnRunning job_id)).
Proof.
  assert (exclusive sys0) as Hex0.
  { intros id. unfold executions. rewrite Hinit. simpl. split; [lia|].
    intros H. inversion H. }
  pose proof (run_exclusive trace sys0 sys Hquiet Hex0 Hrun job_id) as [Hle Hmark].
  split_and!; [exact Hle | exact Hmark|].
  intros j Hj Hr. split.
  - simpl. by rewrite (start_enter_running _ _ _ _ j).
  - intros body. unfold start. by rewrite (start_enter_running _ _ _ _ j).
Qed.

Lemma duplicate_start_dropped_witness :
  executing Scenario.idle = [] ∧
  undisturbed Scenario.twice Scenario.idle ∧
  run Scenario.twice Scenario.idle =
    Some {| sched_of :=
              {| jobs := [("jobA", Scenario.plugin_job "Plugin.sync" "Sync" "p" "P" true)];
                 triggers := [mkTrigger "jobA" "Sync" 10];
                 log := [WarnRunning "jobA"] |};
            executing := ["jobA"] |} ∧
  (executions "jobA"
     {| sched_of :=
          {| jobs := [("jobA", Scenario.plugin_job "Plugin.sync" "Sync" "p" "P" true)];
             triggers := [mkTrigger "jobA" "Sync" 10];
             log := [WarnRunning "jobA"] |};
        executing := ["jobA"] |} ≤ 1)%nat.
Proof.
  assert (undisturbed Scenario.twice Scenario.idle) as Hq by (simpl; tauto).
  split; [reflexivity|]. split; [exact Hq|]. split; [reflexivity|].
  exact (proj1 (duplicate_start_dropped Scenario.twice Scenario.idle _ "jobA" [] []
                  eq_refl Hq eq_refl)).
Defined.

(** C1 as stated fails: while the body of [jobA] runs, the plug-in is
    registered anew; [remove_plugin_job] drops the descriptor that is
    marked running, [update_plugin_job] creates a fresh one that is not,
    and the next trigger starts a second body of [jobA]. *)
Lemma two_bodies_counterexample :
  ∃ sys, run Scenario.reconfigure Scenario.idle = Some sys ∧
         executing sys = ["jobA"; "jobA"] ∧
         ¬ (executions "jobA" sys ≤ 1)%nat.
Proof.
  eexists. split; [vm_compute; reflexivity|]. split; [reflexivity|].
  vm_compute. lia.
Qed.

(** * Further properties of the filter module *)

(** ** Induction over nested groups *)

Section RuleGroupInduction.

Variable P : rule_group → Prop.
Hypothesis HName : ∀ s, P (RName s).
Hypothesis HList : ∀ l, Forall P l → P (RList l).

Fixpoint rule_group_nested_ind (g : rule_group) : P g :=
  match g with
  | RName s => HName s
  | RList l =>
      HList l
        ((fix all (l : list rule_group) : Forall P l :=
            match l with
            | [] => List.Forall_nil P
            | x :: l' => List.Forall_cons P x l' (rule_group_nested_ind x) (all l')
            end) l)
  end.

End RuleGroupInduction.

Section GroupFacts.

Variable re_search : string → string → bool.
Variable rule_set : gmap string rule.

Local Abbreviation rule_holds := (match_rule re_search rule_set).
Local Abbreviation group_value := (match_group re_search rule_set).

(** The branches of [__match_group] for a list of two elements or more. *)
Lemma group_value_long torrent x y rest :
  group_value torrent (RList (x :: y :: rest)) =
  if is_word "not" x then
    v ← group_value torrent (RList (y :: rest)); Ok (py_not v)
  else if is_word "and" y then
    a ← group_value torrent x; py_and a (group_value torrent (RList rest))
  else if is_word "or" y then
    a ← group_value torrent x; py_or a (group_value torrent (RList rest))
  else Ok None.
Proof. reflexivity. Qed.

(** X1. A flat chain of names and operators of any length evaluates as
    the fold from the right, provided no operand is the word [not]. In
    particular a chain of [and] alone is true exactly when every name
    holds, and a chain of [or] alone exactly when some name does. *)
Theorem flat_chain_value (torrent : TorrentInfo) (ops : list (string * binop))
    (last : string) (Hops : ∀ a o, (a, o) ∈ ops → a ≠ "not") :
  group_value torrent (RList (flat_chain ops last)) =
    Ok (Some (fold_chain (rule_holds torrent) ops last)) ∧
  ((∀ a o, (a, o) ∈ ops → o = OpAnd) →
   group_value torrent (RList (flat_chain ops last)) =
     Ok (Some (forallb (rule_holds torrent) (ops.*1 ++ [last])%list))) ∧
  ((∀ a o, (a, o) ∈ ops → o = OpOr) →
   group_value torrent (RList (flat_chain ops last)) =
     Ok (Some (existsb (rule_holds torrent) (ops.*1 ++ [last])%list))).
Proof.
  assert (group_value torrent (RList (flat_chain ops last)) =
          Ok (Some (fold_chain (rule_holds torrent) ops last))) as Hfold.
  { induction ops as [|[a o] ops IH]; [reflexivity|].
    cbn [flat_chain fold_chain]. rewrite group_value_long.
    assert (is_word "not" (RName a) = false) as ->.
    { simpl. apply String.eqb_neq. apply (Hops a o). by left. }
    rewrite IH by (intros a' o' Hin; apply (Hops a' o'); by right).
    destruct o; simpl; unfold py_and, py_or; simpl;
      by destruct (rule_holds torrent a). }
  split; [exact Hfold|]. rewrite Hfold. split; intros Hall; do 2 f_equal.
  - clear Hfold Hops. induction ops as [|[a o] ops IH]; simpl.
    + by rewrite andb_true_r.
    + rewrite (Hall a o) by (by left). simpl. f_equal.
      apply IH. intros a' o' Hin. apply (Hall a' o'). by right.
  - clear Hfold Hops. induction ops as [|[a o] ops IH]; simpl.
    + by rewrite orb_false_r.
    + rewrite (Hall a o) by (by left). simpl. f_equal.
      apply IH. intros a' o' Hin. apply (Hall a' o'). by right.
Qed.

(** X2. Evaluation stops at the operand that decides: after a false
    left operand of [and], and after a true left operand of [or], the rest
    of the group is not looked at, whatever it is; a missing or malformed
    right operand then goes unnoticed. *)
Theorem short_circuit (torrent : TorrentInfo) (x : rule_group) (rest : list rule_group)
    (a : option bool)
    (Hx : is_word "not" x = false)
    (Hv : group_value torrent x = Ok a) :
  (truthy a = false → group_value torrent (RList (x :: RName "and" :: rest)) = Ok a) ∧
  (truthy a = true → group_value torrent (RList (x :: RName "or" :: rest)) = Ok a).
Proof.
  split; intros Ha; rewrite group_value_long, Hx; simpl; rewrite Hv; simpl.
  - unfold py_and. by rewrite Ha.
  - unfold py_or. by rewrite Ha.
Qed.

Lemma rule_holds_same_text t t' n :
  same_text t t' → rule_holds t n = rule_holds t' n.
Proof. intros [Ht Hd]. unfold match_rule, content. by rewrite Ht, Hd. Qed.

(** The value of a group depends on title and description only. *)
Lemma group_value_same_text t t' g :
  same_text t t' → group_value t g = group_value t' g.
Proof.
  intros Hsame. induction g as [s|l Hall] using rule_group_nested_ind.
  - simpl. by rewrite (rule_holds_same_text t t' s Hsame).
  - assert (∀ n l, (List.length l ≤ n)%nat →
                   Forall (λ g, group_value t g = group_value t' g) l →
                   group_value t (RList l) = group_value t' (RList l)) as Hlen.
    { clear l Hall. induction n as [|n IH]; intros l Hn Hall.
      - destruct l; [reflexivity | simpl in Hn; lia].
      - destruct l as [|x [|y rest]]; [reflexivity| |].
        + simpl. destruct x; [|reflexivity]. simpl.
          by rewrite (rule_holds_same_text t t' s Hsame).
        + rewrite !group_value_long.
          apply Forall_cons in Hall as [Hx Hall].
          assert (group_value t (RList (y :: rest)) = group_value t' (RList (y :: rest)))
            as -> by (apply IH; [simpl in *; lia | done]).
          assert (group_value t (RList rest) = group_value t' (RList rest)) as ->.
          { apply IH; [simpl in *; lia|]. by apply Forall_cons in Hall as [_ ?]. }
          by rewrite Hx. }
    by apply (Hlen (List.length l)).
Qed.

End GroupFacts.

(** ** Splitting a string *)

Lemma split_cons sep s : ∃ w ws, PyStr.split sep s = w :: ws.
Proof.
  destruct s as [|c s]; simpl; [by eexists _, _|].
  destruct (Ascii.eqb c sep); [by eexists _, _|].
  destruct (PyStr.split sep s); by eexists _, _.
Qed.

Lemma split_length sep s :
  List.length (PyStr.split sep s) = S (count_char sep s).
Proof.
  induction s as [|c s IH]; simpl; [done|].
  destruct (Ascii.eqb c sep); simpl; [by rewrite IH|].
  destruct (PyStr.split sep s); simpl in *; done.
Qed.

Lemma split_no_sep sep s : count_char sep s = 0%nat → PyStr.split sep s = [s].
Proof.
  induction s as [|c s IH]; simpl; [done|].
  destruct (Ascii.eqb c sep); simpl; [done|]. intros H. by rewrite IH.
Qed.

Lemma split_app sep base rest :
  count_char sep base = 0%nat →
  PyStr.split sep (base +:+ String sep rest) = base :: PyStr.split sep rest.
Proof.
  induction base as [|c base IH]; simpl.
  - intros _. by rewrite Ascii.eqb_refl.
  - destruct (Ascii.eqb c sep); simpl; [done|]. intros H. by rewrite IH.
Qed.

Lemma join_long sep a b l :
  join sep (a :: b :: l) = a +:+ String sep (join sep (b :: l)).
Proof. reflexivity. Qed.

(** X3. The pieces that [split] cuts a string into contain no separator,
    there is one more of them than there are separators, and joined by the
    separator they give the string back: the tiers of a rule string are
    exactly its parts between the [>]. *)
Theorem split_join (sep : ascii) (s : string) :
  join sep (PyStr.split sep s) = s ∧
  Forall (λ w, count_char sep w = 0%nat) (PyStr.split sep s) ∧
  List.length (PyStr.split sep s) = S (count_char sep s).
Proof.
  split_and!; [| |apply split_length].
  - induction s as [|c s IH]; simpl; [done|].
    destruct (Ascii.eqb c sep) eqn:Hc.
    + apply Ascii.eqb_eq in Hc as ->.
      destruct (split_cons sep s) as (w & ws & Hs). rewrite Hs in *.
      by rewrite join_long, IH.
    + destruct (PyStr.split sep s) as [|w [|w' ws]]; [by rewrite <- IH..|].
      rewrite join_long in *. simpl. by rewrite <- IH.
  - induction s as [|c s IH]; simpl; [by repeat constructor|].
    destruct (Ascii.eqb c sep) eqn:Hc.
    + by constructor.
    + destruct (PyStr.split sep s) as [|w ws]; simpl.
      * repeat constructor. simpl. by rewrite Hc.
      * apply Forall_cons in IH as [Hw Hws]. constructor; [|done].
        simpl. by rewrite Hc.
Qed.

(** X4. A trigger id made of a logical job id without [|], a [|] and any
    suffix has that job id as its logical id, and a job id without [|] is
    its own logical id. *)
Theorem logical_id_of_suffixed (job_id suffix : string)
    (Hplain : count_char "|" job_id = 0%nat) :
  logical_id (job_id +:+ String "|" suffix) = job_id ∧ logical_id job_id = job_id.
Proof.
  unfold logical_id. by rewrite split_app, split_no_sep.
Qed.

Lemma logical_id_of_suffixed_witness :
  count_char "|" "subscribe_refresh" = 0%nat ∧
  logical_id "subscribe_refresh|3:15" = "subscribe_refresh" ∧
  logical_id "subscribe_refresh" = "subscribe_refresh".
Proof.
  split; [reflexivity|].
  exact (logical_id_of_suffixed "subscribe_refresh" "3:15" eq_refl).
Defined.

(** ** The filter as a whole *)

Section FilterMore.

Variable re_search : string → string → bool.
Variable parse : string → res (list rule_group).
Variable rule_set : gmap string rule.

Local Abbreviation tier := (tier_matches re_search parse rule_set).
Local Abbreviation order_from := (get_order_from re_search parse rule_set).
Local Abbreviation order := (get_order re_search parse rule_set).
Local Abbreviation filtered := (filter_torrents re_search parse rule_set).

Lemma set_pri_order_same_text t t' v :
  same_text t t' → set_pri_order t v = set_pri_order t' v.
Proof. intros [Ht Hd]. unfold set_pri_order. by rewrite Ht, Hd. Qed.

Lemma tier_same_text t t' g : same_text t t' → tier t g = tier t' g.
Proof.
  intros Hsame. unfold tier_matches.
  destruct (parse (PyStr.strip g)) as [parsed|e]; [|done]. simpl.
  destruct (first_of parsed) as [g0|e]; [|done]. simpl.
  by rewrite (group_value_same_text re_search rule_set t t' g0 Hsame).
Qed.

Lemma order_from_same_text t t' tiers n :
  same_text t t' → order_from t tiers n = order_from t' tiers n.
Proof.
  intros Hsame. revert n. induction tiers as [|g tiers IH]; intros n; [done|].
  rewrite !order_from_cons, (tier_same_text t t' g Hsame).
  destruct (tier t' g) as [[]|]; [|apply IH|done].
  by rewrite (set_pri_order_same_text t t' n Hsame).
Qed.

(** X5. The filter looks at title and description only: the priority an
    item comes with plays no part, and two lists whose items agree on
    title and description one by one give the same result. *)
Theorem filter_ignores_priority (l l' : list TorrentInfo) (rule_str : string)
    (Hsame : Forall2 same_text l l') :
  filtered l rule_str = filtered l' rule_str.
Proof.
  induction Hsame as [|t t' l l' Ht _ IH]; [done|].
  cbn [filter_torrents]. unfold get_order.
  by rewrite (order_from_same_text t t' _ _ Ht), IH.
Qed.

Lemma order_fixed t t1 rule_str :
  order t rule_str = Ok (Some t1) → order t1 rule_str = Ok (Some t1).
Proof.
  unfold get_order. intros H.
  pose proof (order_from_cases re_search parse rule_set t (PyStr.split ">" rule_str) 100)
    as Hcase.
  rewrite H in Hcase. destruct Hcase as (k & _ & Ht1).
  rewrite <- H. apply order_from_same_text. by rewrite Ht1.
Qed.

(** X6. Filtering is idempotent: the output, filtered again with the same
    rule string, comes back unchanged. *)
Theorem filter_idempotent (l out : list TorrentInfo) (rule_str : string)
    (Hret : filtered l rule_str = Ok out) :
  filtered out rule_str = Ok out.
Proof.
  revert out Hret. induction l as [|t l IH]; intros out; cbn [filter_torrents].
  - by intros [= <-].
  - destruct (order t rule_str) as [o|e] eqn:Ho; [|done]. simpl.
    destruct (filtered l rule_str) as [ret|e]; [|done]. simpl. intros [= <-].
    specialize (IH ret eq_refl). destruct o as [t1|]; [|exact IH].
    cbn [filter_torrents]. by rewrite (order_fixed t t1 rule_str Ho), IH.
Qed.

(** X7. Each item is judged on its own: filtering two lists one after the
    other and appending the results is filtering the appended lists, the
    first exception in the order of the items included. *)
Theorem filter_app (l1 l2 : list TorrentInfo) (rule_str : string) :
  filtered (l1 ++ l2) rule_str =
  (a ← filtered l1 rule_str; b ← filtered l2 rule_str; Ok (a ++ b)%list).
Proof.
  induction l1 as [|t l1 IH]; cbn [filter_torrents app].
  - simpl. by destruct (filtered l2 rule_str).
  - destruct (order t rule_str) as [o|e]; [|done]. simpl. rewrite IH.
    destruct (filtered l1 rule_str) as [a|e]; [|done]. simpl.
    destruct (filtered l2 rule_str) as [b|e]; [|done]. simpl. by destruct o.
Qed.

Lemma filtered_elem l rule_str out t1 :
  filtered l rule_str = Ok out → t1 ∈ out →
  ∃ t, t ∈ l ∧ order t rule_str = Ok (Some t1).
Proof.
  revert out. induction l as [|t l IH]; intros out; cbn [filter_torrents].
  - intros [= <-] Hin. inversion Hin.
  - destruct (order t rule_str) as [o|e] eqn:Ho; [|done]. simpl.
    destruct (filtered l rule_str) as [ret|e]; [|done]. simpl. intros [= <-] Hin.
    assert (t1 ∈ ret → ∃ t0, t0 ∈ t :: l ∧ order t0 rule_str = Ok (Some t1)) as Hrest.
    { intros Hr. destruct (IH ret eq_refl Hr) as (t0 & Hin0 & Ht0).
      exists t0. split; [by right | done]. }
    destruct o as [t2|]; [|by apply Hrest].
    apply elem_of_cons in Hin as [->|Hin]; [|by apply Hrest].
    exists t. split; [by left | done].
Qed.

(** X8. Every item of the output has a priority, at most 100 and at least
    100 minus the number of [>] in the rule string; nothing keeps it above
    zero when the rule string has more than a hundred tiers. *)
Theorem priority_bounds (l out : list TorrentInfo) (rule_str : string) (t1 : TorrentInfo)
    (Hret : filtered l rule_str = Ok out) (Hin : t1 ∈ out) :
  ∃ p : Z, pri_order t1 = Some p ∧
           100 - Z.of_nat (count_char ">" rule_str) ≤ p ≤ 100.
Proof.
  destruct (filtered_elem l rule_str out t1 Hret Hin) as (t & _ & Ht).
  unfold get_order in Ht.
  pose proof (order_from_cases re_search parse rule_set t (PyStr.split ">" rule_str) 100)
    as Hcase.
  rewrite Ht in Hcase. destruct Hcase as (k & [(g & Hg & _) _] & ->).
  apply lookup_lt_Some in Hg. rewrite split_length in Hg.
  eexists. split; [reflexivity|]. lia.
Qed.

End FilterMore.

(** * Further properties of the scheduler *)

Section ODictMore.
Context {V : Type}.
Implicit Types (d : list (string * V)) (k : string) (v : V).

Lemma set_get_id k v d : ODict.get k d = Some v → ODict.set k v d = d.
Proof.
  induction d as [|[k' v'] d IH]; simpl; [done|].
  destruct (decide (k' = k)) as [->|Hne].
  - by intros [= ->].
  - intros H. by rewrite IH.
Qed.

Lemma set_set k v v' d : ODict.set k v (ODict.set k v' d) = ODict.set k v d.
Proof.
  induction d as [|[k1 v1] d IH]; simpl.
  - by rewrite decide_True.
  - destruct (decide (k1 = k)) as [->|Hne]; simpl.
    + by rewrite decide_True.
    + by rewrite decide_False, IH.
Qed.

Lemma elem_pop k v k' d : (k, v) ∈ ODict.pop k' d ↔ (k, v) ∈ d ∧ k ≠ k'.
Proof.
  induction d as [|[k1 v1] d IH]; simpl.
  - split; [intros H; inversion H | intros [H _]; inversion H].
  - destruct (decide (k1 = k')) as [->|Hne].
    + rewrite IH, elem_of_cons. split; [intros [? ?]; split; [by right | done]|].
      intros [[Heq|?] ?]; [by simplify_eq | done].
    + rewrite !elem_of_cons, IH. split.
      * intros [Heq|[? ?]]; [simplify_eq; split; [by left | done] | split; [by right | done]].
      * intros [[Heq|?] ?]; [by left | by right].
Qed.

End ODictMore.

Lemma set_running_back j :
  running j = false → set_running false (set_running true j) = j.
Proof. destruct j. simpl. by intros ->. Qed.

(** X9. A run of [start] that finds its descriptor idle, with a trigger
    of the job's own id, and whose body leaves the scheduler alone, puts
    the scheduler back as it was: the job is waiting again, whether the
    body returned or raised; an exception of the body is logged and goes
    no further. *)
Theorem start_round_trip (st : sched) (job_id : string) (args : args_t) (kw : kwargs_t)
    (j : job) (t : trigger) (outcome : option exn)
    (Hjob : ODict.get job_id (jobs st) = Some j)
    (Hidle : running j = false)
    (Htrigger : Aps.get_job job_id (triggers st) = Some t) :
  start (λ _ s, (s, outcome)) st job_id args kw =
  match outcome with
  | Some e => add_log st (ErrorFailed job_id e)
  | None => st
  end.
Proof.
  unfold start, start_enter. rewrite Hjob, Hidle. unfold start_exit.
  destruct st as [d ts lg]. simpl in *.
  destruct outcome as [e|]; simpl; rewrite Htrigger, get_set_eq, set_set,
    (set_running_back j Hidle), (set_get_id job_id j d Hjob); reflexivity.
Qed.

Lemma start_round_trip_witness :
  ODict.get "subscribe_search" (jobs Scenario.spider) =
    Some (Scenario.builtin "SubscribeChain.search" (Some [("state", "R")]) false) ∧
  Aps.get_job "subscribe_search" (triggers Scenario.spider) =
    Some (mkTrigger "subscribe_search" "订阅搜索" 500) ∧
  start (λ _ s, (s, Some (OtherError "timeout"))) Scenario.spider "subscribe_search" [] [] =
    add_log Scenario.spider (ErrorFailed "subscribe_search" (OtherError "timeout")).
Proof.
  split; [reflexivity|]. split; [reflexivity|].
  exact (start_round_trip Scenario.spider "subscribe_search" [] []
           (Scenario.builtin "SubscribeChain.search" (Some [("state", "R")]) false)
           (mkTrigger "subscribe_search" "订阅搜索" 500)
           (Some (OtherError "timeout")) eq_refl eq_refl eq_refl).
Defined.

Lemma start_enter_other st job_id args kw k :
  k ≠ job_id →
  ODict.get k (jobs (start_enter st job_id args kw).1) = ODict.get k (jobs st).
Proof.
  intros Hne. unfold start_enter.
  destruct (ODict.get job_id (jobs st)) as [j|]; [|done].
  destruct (running j); [done|]. simpl. by apply get_set_ne.
Qed.

Lemma start_enter_triggers st job_id args kw :
  triggers (start_enter st job_id args kw).1 = triggers st.
Proof.
  unfold start_enter. destruct (ODict.get job_id (jobs st)) as [j|]; [|done].
  by destruct (running j).
Qed.

Lemma start_exit_triggers st job_id outcome :
  triggers (start_exit st job_id outcome) = triggers st.
Proof. unfold start_exit. by destruct outcome. Qed.

(** X10. [start] acts on one descriptor only. Neither of its two blocks
    adds, removes or changes a job of the trigger subsystem, and neither
    changes the descriptor of another job id. After the second block the
    descriptor of the job is in the table exactly when it was there before
    and the trigger subsystem has a job whose id is the job id itself; it
    is then marked as not running. *)
Theorem start_frame (st : sched) (job_id : string) (args : args_t) (kw : kwargs_t)
    (outcome : option exn) :
  triggers (start_enter st job_id args kw).1 = triggers st ∧
  triggers (start_exit st job_id outcome) = triggers st ∧
  (∀ k, k ≠ job_id →
        ODict.get k (jobs (start_enter st job_id args kw).1) = ODict.get k (jobs st) ∧
        ODict.get k (jobs (start_exit st job_id outcome)) = ODict.get k (jobs st)) ∧
  ODict.get job_id (jobs (start_exit st job_id outcome)) =
    match Aps.get_job job_id (triggers st) with
    | None => None
    | Some _ => set_running false <$> ODict.get job_id (jobs st)
    end.
Proof.
  split_and!.
  - apply start_enter_triggers.
  - apply start_exit_triggers.
  - intros k Hk. split; [by apply start_enter_other | by apply start_exit_other].
  - apply start_exit_descriptor.
Qed.

(** ** [remove_plugin_job], exactly *)

Lemma remove_one_elem p n st k1 j1 k j :
  (k, j) ∈ jobs (remove_one p n st (k1, j1)) ↔
  (k, j) ∈ jobs st ∧ (pid j1 = Some p → k ≠ k1).
Proof.
  rewrite remove_one_jobs. case_bool_decide as Hp.
  - rewrite elem_pop. tauto.
  - tauto.
Qed.

Lemma remove_one_trigger p n st k1 j1 t :
  t ∈ triggers (remove_one p n st (k1, j1)) ↔
  t ∈ triggers st ∧ (pid j1 = Some p → tid t ≠ k1).
Proof.
  unfold remove_one. case_bool_decide as Hp; [|tauto].
  unfold Aps.remove_job. cbn [triggers with_jobs].
  destruct (Aps.get_job k1 (triggers st)) as [t1|] eqn:Hg; cbn [triggers add_log with_triggers].
  - rewrite list_elem_of_In, filter_In, <- list_elem_of_In, negb_true_iff,
      bool_decide_eq_false. tauto.
  - pose proof (proj1 (get_job_none k1 (triggers st)) Hg) as Hnone.
    split; [intros Hin; split; [done | intros _; by apply Hnone] | by intros [? _]].
Qed.

Lemma remove_loop_elem p n items st k j :
  (k, j) ∈ jobs (foldl (remove_one p n) st items) ↔
  (k, j) ∈ jobs st ∧ ¬ ∃ j', (k, j') ∈ items ∧ pid j' = Some p.
Proof.
  revert st. induction items as [|[k1 j1] items IH]; intros st; cbn [foldl].
  - split; [intros H; split; [done|]; intros (j' & Hin & _); inversion Hin | by intros [? _]].
  - rewrite IH, remove_one_elem. split.
    + intros [[Hin Hk] Hno]. split; [done|].
      intros (j' & [[= -> ->]|Hin']%elem_of_cons & Hp); [by apply Hk|].
      apply Hno. by exists j'.
    + intros [Hin Hno]. split_and!; [done| |].
      * intros Hp ->. apply Hno. exists j1. split; [by left | done].
      * intros (j' & Hin' & Hp). apply Hno. exists j'. split; [by right | done].
Qed.

Lemma remove_loop_trigger p n items st t :
  t ∈ triggers (foldl (remove_one p n) st items) ↔
  t ∈ triggers st ∧ ¬ ∃ j', (tid t, j') ∈ items ∧ pid j' = Some p.
Proof.
  revert st. induction items as [|[k1 j1] items IH]; intros st; cbn [foldl].
  - split; [intros H; split; [done|]; intros (j' & Hin & _); inversion Hin | by intros [? _]].
  - rewrite IH, remove_one_trigger. split.
    + intros [[Hin Hk] Hno]. split; [done|].
      intros (j' & [[= Hid ->]|Hin']%elem_of_cons & Hp); [by apply Hk|].
      apply Hno. by exists j'.
    + intros [Hin Hno]. split_and!; [done| |].
      * intros Hp Hid. apply Hno. exists j1. rewrite Hid. split; [by left | done].
      * intros (j' & Hin' & Hp). apply Hno. exists j'. split; [by right | done].
Qed.

Lemma remove_loop_nothing p n items st :
  (∀ k j, (k, j) ∈ items → pid j ≠ Some p) →
  foldl (remove_one p n) st items = st.
Proof.
  revert st. induction items as [|[k1 j1] items IH]; intros st Hno; cbn [foldl]; [done|].
  assert (remove_one p n st (k1, j1) = st) as ->.
  { unfold remove_one. rewrite bool_decide_eq_false_2; [done|].
    apply (Hno k1). by left. }
  apply IH. intros k j Hin. apply (Hno k). by right.
Qed.

(** X11. [remove_plugin_job] is idempotent: a second call for the same
    plug-in finds nothing to remove and changes nothing, the log included. *)
Theorem remove_plugin_job_idempotent (st : sched) (p : string) (n n' : option string) :
  remove_plugin_job (remove_plugin_job st p n) p n' = remove_plugin_job st p n.
Proof.
  unfold remove_plugin_job at 1. apply remove_loop_nothing.
  intros k j Hin Hp. unfold remove_plugin_job in Hin.
  apply remove_loop_elem in Hin as [Hin Hno]. apply Hno. by exists j.
Qed.

(** X12. What [remove_plugin_job] removes, and nothing more: of the
    descriptors, those of the plug-in, the others staying as they are; of
    the jobs of the trigger subsystem, those whose id is the key of a
    descriptor of the plug-in, the others staying. A trigger under another
    id survives even if it fires a job of the plug-in. *)
Theorem remove_plugin_job_exact (st : sched) (p : string) (n : option string)
    (Hwf : ODict.wf (jobs st)) :
  (∀ k, ODict.get k (jobs (remove_plugin_job st p n)) =
        match ODict.get k (jobs st) with
        | Some j => if bool_decide (pid j = Some p) then None else Some j
        | None => None
        end) ∧
  (∀ t, t ∈ triggers (remove_plugin_job st p n) ↔
        t ∈ triggers st ∧
        ¬ ∃ j, ODict.get (tid t) (jobs st) = Some j ∧ pid j = Some p).
Proof.
  split.
  - intros k. destruct (ODict.get k (jobs st)) as [j|] eqn:Hg.
    + case_bool_decide as Hp.
      * eapply remove_loop_owned; [by apply get_Some_elem | done].
      * assert ((k, j) ∈ jobs (remove_plugin_job st p n)) as Hin.
        { apply remove_loop_elem. split; [by apply get_Some_elem|].
          intros (j' & Hin' & Hp'). apply (wf_elem_get _ _ _ Hwf) in Hin'.
          congruence. }
        destruct (remove_plugin_job_shrinks st p n k) as [H|H]; [|congruence].
        apply get_None_keys in H. destruct H.
        apply list_elem_of_fmap. by exists (k, j).
    + destruct (remove_plugin_job_shrinks st p n k) as [H|H]; congruence.
  - intros t. unfold remove_plugin_job. rewrite remove_loop_trigger.
    split; intros [Hin Hno]; (split; [done|]); intros (j & Hj & Hp); apply Hno; exists j.
    + split; [by apply get_Some_elem | done].
    + split; [by apply wf_elem_get | done].
Qed.

(** ** [update_plugin_job] *)

Lemma register_one_jobs p n st s :
  jobs (register_one p n st s) =
  match ODict.get (logical_id (sid s)) (jobs st) with
  | Some _ => jobs st
  | None =>
      ODict.set (logical_id (sid s))
        {| func := sfunc s; name := Some (sname s); pid := Some p;
           plugin_name := match n with Some x => Val x | None => Null end;
           running := false; kwargs := None |} (jobs st)
  end.
Proof.
  unfold register_one.
  destruct (ODict.get (logical_id (sid s)) (jobs st)); by destruct (Aps.add_job _ _).
Qed.

Lemma register_one_triggers p n st s :
  triggers (register_one p n st s) =
  match Aps.get_job (sid s) (triggers st) with
  | Some _ => triggers st
  | None => (triggers st ++ [mkTrigger (sid s) (sname s) (snext s)])%list
  end.
Proof.
  unfold register_one, Aps.add_job. cbn [tid].
  destruct (ODict.get (logical_id (sid s)) (jobs st));
    cbn [triggers with_jobs]; by destruct (Aps.get_job (sid s) (triggers st)).
Qed.

Lemma register_one_keeps p n st s k j :
  ODict.get k (jobs st) = Some j → ODict.get k (jobs (register_one p n st s)) = Some j.
Proof.
  intros Hk. rewrite register_one_jobs.
  destruct (ODict.get (logical_id (sid s)) (jobs st)) eqn:Hg; [done|].
  rewrite get_set_ne; [done|]. intros Heq. congruence.
Qed.

Lemma register_loop_keeps p n l st k j :
  ODict.get k (jobs st) = Some j →
  ODict.get k (jobs (foldl (register_one p n) st l)) = Some j.
Proof.
  revert st. induction l as [|s l IH]; intros st Hk; cbn [foldl]; [done|].
  by apply IH, register_one_keeps.
Qed.

Lemma register_one_new p n st s k j :
  ODict.get k (jobs (register_one p n st s)) = Some j →
  ODict.get k (jobs st) = Some j ∨
  (running j = false ∧ pid j = Some p ∧ logical_id (sid s) = k ∧
   name j = Some (sname s) ∧ func j = sfunc s).
Proof.
  rewrite register_one_jobs.
  destruct (ODict.get (logical_id (sid s)) (jobs st)) eqn:Hg; [by left|].
  destruct (decide (logical_id (sid s) = k)) as [<-|Hne].
  - rewrite get_set_eq. intros [= <-]. by right.
  - rewrite get_set_ne by done. by left.
Qed.

Lemma register_loop_new p n l st k j :
  ODict.get k (jobs (foldl (register_one p n) st l)) = Some j →
  ODict.get k (jobs st) = Some j ∨
  (running j = false ∧ pid j = Some p ∧
   ∃ s, s ∈ l ∧ logical_id (sid s) = k ∧ name j = Some (sname s) ∧ func j = sfunc s).
Proof.
  revert st. induction l as [|s l IH]; intros st; cbn [foldl]; [by left|].
  intros [H|(Hr & Hp & s' & Hin & Hs')]%IH.
  - apply register_one_new in H as [H|(Hr & Hp & Hk & Hn & Hf)]; [by left|].
    right. split_and!; [done..|]. exists s. split; [by left | done].
  - right. split_and!; [done..|]. exists s'. split; [by right | done].
Qed.

(** X13. Registering the services of a plug-in never replaces a
    descriptor that is in the table, whoever owns it; afterwards every
    service has a descriptor under its logical id; and a descriptor that
    was not there before is not running, belongs to the plug-in and
    carries the callable and the name of one of the services. *)
Theorem register_descriptors (st : sched) (p : string) (l : list service)
    (n : option string) :
  (∀ k j, ODict.get k (jobs st) = Some j →
          ODict.get k (jobs (register_plugin_services st p (Ok l) n)) = Some j) ∧
  (∀ s, s ∈ l →
        is_Some (ODict.get (logical_id (sid s))
                   (jobs (register_plugin_services st p (Ok l) n)))) ∧
  (∀ k j, ODict.get k (jobs st) = None →
          ODict.get k (jobs (register_plugin_services st p (Ok l) n)) = Some j →
          running j = false ∧ pid j = Some p ∧
          ∃ s, s ∈ l ∧ logical_id (sid s) = k ∧
               name j = Some (sname s) ∧ func j = sfunc s).
Proof.
  cbn [register_plugin_services]. split_and!.
  - intros k j. apply register_loop_keeps.
  - revert st. induction l as [|s l IH]; intros st s0 Hin; [inversion Hin|].
    cbn [foldl]. apply elem_of_cons in Hin as [->|Hin]; [|by apply IH].
    assert (is_Some (ODict.get (logical_id (sid s)) (jobs (register_one p n st s))))
      as [j Hj].
    { rewrite register_one_jobs.
      destruct (ODict.get (logical_id (sid s)) (jobs st)) eqn:Hg; [by rewrite Hg|].
      by rewrite get_set_eq. }
    exists j. by apply register_loop_keeps.
  - intros k j Hnone [H|H]%register_loop_new; [congruence | done].
Qed.

Lemma get_job_is_Some id l : is_Some (Aps.get_job id l) ↔ ∃ t, t ∈ l ∧ tid t = id.
Proof.
  split.
  - intros [t Ht]. apply get_job_id in Ht as [? ?]. by exists t.
  - intros (t & Hin & Hid). destruct (Aps.get_job id l) eqn:Hg; [done|].
    by destruct (proj1 (get_job_none id l) Hg t Hin).
Qed.

(** X14. Registration keeps the ids of the trigger subsystem distinct and
    keeps every job it has; a service whose id is taken is not registered
    a second time; and afterwards every service id is the id of a job of
    the trigger subsystem, so one failing service does not stop the
    others. *)
Theorem register_triggers (st : sched) (p : string) (l : list service)
    (n : option string) (Hids : NoDup (tid <$> triggers st)) :
  NoDup (tid <$> triggers (register_plugin_services st p (Ok l) n)) ∧
  (∀ t, t ∈ triggers st → t ∈ triggers (register_plugin_services st p (Ok l) n)) ∧
  (∀ s, s ∈ l →
        ∃ t, t ∈ triggers (register_plugin_services st p (Ok l) n) ∧ tid t = sid s).
Proof.
  cbn [register_plugin_services].
  assert (∀ st s, NoDup (tid <$> triggers st) →
            NoDup (tid <$> triggers (register_one p n st s)) ∧
            (∀ t, t ∈ triggers st → t ∈ triggers (register_one p n st s)) ∧
            ∃ t, t ∈ triggers (register_one p n st s) ∧ tid t = sid s) as Hone.
  { intros st0 s Hnd. rewrite register_one_triggers.
    destruct (Aps.get_job (sid s) (triggers st0)) as [t|] eqn:Hg.
    - split_and!; [done..|]. apply get_job_id in Hg as [? ?]. by exists t.
    - split_and!.
      + rewrite fmap_app. apply NoDup_app. split_and!; [done| |apply NoDup_singleton].
        intros id (t & -> & Hin)%list_elem_of_fmap Hid. simpl in Hid.
        apply list_elem_of_singleton in Hid.
        by destruct (proj1 (get_job_none _ _) Hg t Hin).
      + intros t Hin. apply elem_of_app. by left.
      + eexists. split; [apply elem_of_app; right; by left | done]. }
  revert st Hids. induction l as [|s l IH]; intros st Hids; cbn [foldl].
  - split_and!; [done..|]. intros s Hin. inversion Hin.
  - destruct (Hone st s Hids) as (Hnd1 & Hkeep1 & t1 & Hin1 & Hid1).
    destruct (IH (register_one p n st s) Hnd1) as (Hnd & Hkeep & Hall).
    split_and!; [done | by intros t Hin; apply Hkeep, Hkeep1 |].
    intros s0 [->|Hin]%elem_of_cons; [|by apply Hall].
    exists t1. split; [by apply Hkeep | done].
Qed.


(** ** [list], entry by entry *)

Lemma shown_running j : shown j = true → running j = true.
Proof.
  unfold shown. destruct (name j); [|done]. destruct (plugin_name j); [done..|].
  by intros [[? _]%andb_true_iff _]%andb_true_iff.
Qed.

Lemma list_waiting_entry td d sorted added e :
  e ∈ list_waiting td d sorted added →
  ∃ j, ODict.get (info_id e) d = Some j ∧
       info_status e = (if running j then StRunning else StWaiting).
Proof.
  revert added. induction sorted as [|t sorted IH]; intros added; cbn [list_waiting].
  - intros H. inversion H.
  - case_bool_decide; [apply IH|].
    destruct (ODict.get (logical_id (tid t)) d) as [service|] eqn:Hg; [|apply IH].
    intros [->|Hin]%elem_of_cons; [|by eapply IH].
    exists service. by split.
Qed.

(** X16. Every entry that [list] returns is about a descriptor that is in
    the table under the id shown, and its status says running exactly when
    that descriptor is marked running; a trigger whose job has no
    descriptor gives no entry. *)
Theorem list_consistent (time_difference : Z → string) (st : sched) (e : ScheduleInfo)
    (Hin : e ∈ sched_list time_difference st) :
  ∃ j, (info_id e, j) ∈ jobs st ∧ (info_status e = StRunning ↔ running j = true).
Proof.
  unfold sched_list in Hin.
  destruct (list_running_spec (jobs st) []) as (_ & _ & Hent).
  destruct (list_running (jobs st) []) as [first added]. simpl in *.
  apply elem_of_app in Hin as [Hin|Hin].
  - destruct (Hent e Hin) as (_ & Hst & j & Hj & Hs & _).
    exists j. split; [done|]. split; [intros _; by apply shown_running | done].
  - apply list_waiting_entry in Hin as (j & Hj & Hst).
    exists j. split; [by apply get_Some_elem|]. rewrite Hst.
    by destruct (running j).
Qed.

Lemma list_consistent_witness :
  mkInfo "b" "Backup" (Some "P") StRunning (Some "") ∈
    sched_list Scenario.no_text Scenario.same_name ∧
  ∃ j, ("b", j) ∈ jobs Scenario.same_name ∧ (StRunning = StRunning ↔ running j = true).
Proof.
  assert (mkInfo "b" "Backup" (Some "P") StRunning (Some "") ∈
            sched_list Scenario.no_text Scenario.same_name) as Hin.
  { vm_compute. do 2 right. left. }
  split; [exact Hin|].
  exact (list_consistent Scenario.no_text Scenario.same_name _ Hin).
Defined.

(** ** The further properties on concrete input *)

Lemma flat_chain_value_witness :
  (∀ a o, (a, o) ∈ Cases.mixed_chain → a ≠ "not") ∧
  Sample.match_group Scenario.remux_2160p (RList (flat_chain Cases.mixed_chain "Y")) =
    Ok (Some true).
Proof.
  assert (∀ a o, (a, o) ∈ Cases.mixed_chain → a ≠ "not") as Hops.
  { intros a o Hin ->. unfold Cases.mixed_chain in Hin.
    apply elem_of_cons in Hin as [Hin|Hin]; [discriminate Hin|].
    apply elem_of_cons in Hin as [Hin|Hin]; [discriminate Hin|].
    inversion Hin. }
  split; [exact Hops|].
  exact (proj1 (flat_chain_value Sample.re_search builtin_rule_set Scenario.remux_2160p
                  Cases.mixed_chain "Y" Hops)).
Defined.

(** The tier [X and] lacks its right operand, yet evaluates: [X] is
    unknown, hence false, and the rest is not looked at. *)
Lemma short_circuit_witness :
  is_word "not" (RName "X") = false ∧
  Sample.match_group Scenario.remux_2160p (RName "X") = Ok (Some false) ∧
  Sample.match_group Scenario.remux_2160p (RList [RName "X"; RName "and"]) =
    Ok (Some false).
Proof.
  split; [reflexivity|]. split; [reflexivity|].
  exact (proj1 (short_circuit Sample.re_search builtin_rule_set Scenario.remux_2160p
                  (RName "X") [] (Some false) eq_refl eq_refl) eq_refl).
Defined.

Lemma filter_ignores_priority_witness :
  Forall2 same_text [Scenario.remux_2160p] [set_pri_order Scenario.remux_2160p 7] ∧
  Sample.filter_torrents [Scenario.remux_2160p] "4K > REMUX" =
  Sample.filter_torrents [set_pri_order Scenario.remux_2160p 7] "4K > REMUX".
Proof.
  assert (Forall2 same_text [Scenario.remux_2160p] [set_pri_order Scenario.remux_2160p 7])
    as Hsame by (repeat constructor).
  split; [exact Hsame|].
  exact (filter_ignores_priority Sample.re_search Sample.parse builtin_rule_set _ _
           "4K > REMUX" Hsame).
Defined.

Lemma filter_idempotent_witness :
  Sample.filter_torrents [Scenario.remux_2160p; Scenario.sd_720p; Scenario.remux_1080p]
    "4K > REMUX" =
    Ok [set_pri_order Scenario.remux_2160p 100; set_pri_order Scenario.remux_1080p 99] ∧
  Sample.filter_torrents
    [set_pri_order Scenario.remux_2160p 100; set_pri_order Scenario.remux_1080p 99]
    "4K > REMUX" =
    Ok [set_pri_order Scenario.remux_2160p 100; set_pri_order Scenario.remux_1080p 99].
Proof.
  assert (Sample.filter_torrents
            [Scenario.remux_2160p; Scenario.sd_720p; Scenario.remux_1080p] "4K > REMUX" =
          Ok [set_pri_order Scenario.remux_2160p 100; set_pri_order Scenario.remux_1080p 99])
    as Hret by (vm_compute; reflexivity).
  split; [exact Hret|].
  exact (filter_idempotent Sample.re_search Sample.parse builtin_rule_set _ _ _ Hret).
Defined.

Lemma priority_bounds_witness :
  Sample.filter_torrents [Scenario.remux_2160p; Scenario.sd_720p; Scenario.remux_1080p]
    "4K > REMUX" =
    Ok [set_pri_order Scenario.remux_2160p 100; set_pri_order Scenario.remux_1080p 99] ∧
  set_pri_order Scenario.remux_1080p 99 ∈
    [set_pri_order Scenario.remux_2160p 100; set_pri_order Scenario.remux_1080p 99] ∧
  ∃ p : Z, pri_order (set_pri_order Scenario.remux_1080p 99) = Some p ∧
           100 - Z.of_nat (count_char ">" "4K > REMUX") ≤ p ≤ 100.
Proof.
  assert (Sample.filter_torrents
            [Scenario.remux_2160p; Scenario.sd_720p; Scenario.remux_1080p] "4K > REMUX" =
          Ok [set_pri_order Scenario.remux_2160p 100; set_pri_order Scenario.remux_1080p 99])
    as Hret by (vm_compute; reflexivity).
  assert (set_pri_order Scenario.remux_1080p 99 ∈
            [set_pri_order Scenario.remux_2160p 100; set_pri_order Scenario.remux_1080p 99])
    as Hin by (right; left).
  split; [exact Hret|]. split; [exact Hin|].
  exact (priority_bounds Sample.re_search Sample.parse builtin_rule_set _ _ _ _ Hret Hin).
Defined.

Lemma busy_wf : ODict.wf (jobs Cases.busy).
Proof.
  unfold ODict.wf, ODict.keys. simpl. apply NoDup_cons. split.
  - intros Hin. apply list_elem_of_singleton in Hin. discriminate.
  - apply NoDup_singleton.
Qed.

Lemma remove_plugin_job_exact_witness :
  ODict.wf (jobs Cases.busy) ∧
  ODict.get "jobA" (jobs (remove_plugin_job Cases.busy "p" (Some "P"))) = None ∧
  ODict.get "transfer" (jobs (remove_plugin_job Cases.busy "p" (Some "P"))) =
    Some (Scenario.builtin "TransferChain.process" None false).
Proof.
  split; [exact busy_wf|].
  pose proof (remove_plugin_job_exact Cases.busy "p" (Some "P") busy_wf) as [Hjobs _].
  split; [exact (Hjobs "jobA") | exact (Hjobs "transfer")].
Defined.

Lemma busy_trigger_ids : NoDup (tid <$> triggers Cases.busy).
Proof.
  simpl. apply NoDup_cons. split.
  - intros Hin. apply list_elem_of_singleton in Hin. discriminate.
  - apply NoDup_singleton.
Qed.

Lemma register_triggers_witness :
  NoDup (tid <$> triggers Cases.busy) ∧
  NoDup (tid <$> triggers
           (register_plugin_services Cases.busy "p" (Ok Cases.services_new) (Some "P"))) ∧
  tid <$> triggers
    (register_plugin_services Cases.busy "p" (Ok Cases.services_new) (Some "P")) =
    ["jobA"; "transfer"; "transfer|x"].
Proof.
  split; [exact busy_trigger_ids|].
  split; [|reflexivity].
  exact (proj1 (register_triggers Cases.busy "p" Cases.services_new (Some "P")
                  busy_trigger_ids)).
Defined.

